(** * FastEstimator: operation lists, the OneOf combinator, Binarize and
      the OpDataset wrapper.

    A shallow embedding of
      - fastestimator/util/op.py          (flatten_operation,
                                           get_op_from_mode, verify_ops),
      - fastestimator/op/numpyop/meta/one_of.py         (OneOf),
      - fastestimator/op/numpyop/univariate/binarize.py (Binarize),
      - fastestimator/dataset/op_dataset.py             (OpDataset),
    together with the properties of these functions. *)

From Stdlib Require Import QArith Lqa.
From stdpp Require Import base strings list gmap.

Close Scope Q_scope.
Open Scope string_scope.
Open Scope list_scope.
Open Scope nat_scope.
Set Warnings "-register-all".

(** [length] is the length of a list throughout. *)
Abbreviation length := Datatypes.length.

(** ** Python values used for [inputs], [outputs] and [mode] *)

(** A key or a mode tag: [None] or a string. *)
Inductive atom :=
  | PyNone
  | PyStr (s : string).

(** What an operation declares: a single atom ([None], ["x"]) or a
    list of atoms (["x", "y"], ["train", None]). *)
Inductive pyval :=
  | Single (a : atom)
  | PyList (l : list atom).

#[global] Instance atom_eq_dec : EqDecision atom.
Proof. solve_decision. Defined.

#[global] Instance pyval_eq_dec : EqDecision pyval.
Proof. solve_decision. Defined.

(** Python truth value: [None], the empty string and the empty list are
    false, everything else is true. *)
Definition truthy (v : pyval) : bool :=
  match v with
  | Single PyNone => false
  | Single (PyStr s) => negb (bool_decide (s = EmptyString))
  | PyList l => negb (bool_decide (l = []))
  end.

(** Python [==] on these values is structural. *)
Definition py_eq (v w : pyval) : bool := bool_decide (v = w).

(** [x in l] for a list of atoms. *)
Definition py_in (x : atom) (l : list atom) : bool := bool_decide (x ∈ l).

(** ** Exceptions *)

Inductive exn :=
  | AssertionError (msg : string)
  | IndexError
  | KeyError (key : string)
  | TypeError
  | ValueError
  | RecursionError
  | SystemError.

Inductive result (A : Type) :=
  | Ok (a : A)
  | Raise (e : exn).
Arguments Ok {A} a.
Arguments Raise {A} e.

(** Sequencing: an exception ends the computation. *)
#[global] Instance result_bind : MBind result := λ A B k r,
  match r with
  | Ok a => k a
  | Raise e => Raise e
  end.

#[global] Instance result_ret : MRet result := λ A a, Ok a.

(** [[f(x) for x in l]], stopping at the first exception. *)
Fixpoint traverse {A B} (f : A → result B) (l : list A) : result (list B) :=
  match l with
  | [] => Ok []
  | x :: l' => y ← f x; ys ← traverse f l'; Ok (y :: ys)
  end.

Definition raises {A} (r : result A) : Prop := ∃ e, r = Raise e.

(** A failed [assert]. *)
Definition contract_violation {A} (r : result A) : Prop :=
  ∃ msg, r = Raise (AssertionError msg).

(** ** n-dimensional arrays *)

(** A numpy array as nested rows; [A] is the element type. *)
Inductive ndarray (A : Type) :=
  | Scalar (x : A)
  | Axis (rows : list (ndarray A)).
Arguments Scalar {A} x.
Arguments Axis {A} rows.

(** Element-wise application, as numpy broadcasts a scalar operation. *)
Fixpoint amap {A B} (f : A → B) (a : ndarray A) : ndarray B :=
  match a with
  | Scalar x => Scalar (f x)
  | Axis rows => Axis (map (amap f) rows)
  end.

(** The elements of an array in row-major order. *)
Fixpoint elements {A} (a : ndarray A) : list A :=
  match a with
  | Scalar x => [x]
  | Axis rows => concat (map elements rows)
  end.

(** What [forward] receives and returns: nothing, one array, or a list
    of arrays. *)
Inductive data :=
  | DNone
  | DArr (a : ndarray Q)
  | DList (l : list (ndarray Q)).

(** The execution context [{"mode": mode}]. *)
Record state := { st_mode : atom }.

(** ** Operations *)

(** The class families named in [verify_ops]. *)
Inductive base_class :=
  | TensorOp
  | NumpyOp
  | TensorFilter
  | OtherClass.

#[global] Instance base_class_eq_dec : EqDecision base_class.
Proof. solve_decision. Defined.

(** An operation object: [type(op).__name__], the family it inherits
    from, the attributes set by [TensorOp.__init__]/[NumpyOp.__init__],
    the list flags set by concrete ops, and its [forward] method. *)
Record op := {
  op_name : string;
  op_base : base_class;
  inputs : pyval;
  outputs : pyval;
  mode : pyval;
  in_list : bool;
  out_list : bool;
  forward : data → state → result data
}.

(** [TensorOp.forward(self, data)] / [NumpyOp.forward(self, data)] of
    util/op.py: the data is returned as it is. *)
Definition base_forward (d : data) : data := d.

(** [NumpyOp.__init__] / [TensorOp.__init__] of util/op.py: the three
    arguments are stored as they are.  The field [forward] of an
    operation is the call [op.forward(data, state)]; the method of
    these two classes takes the data only, so the call with a state
    raises TypeError. *)
Definition NumpyOp_init (name : string) (i o m : pyval) : op :=
  {| op_name := name; op_base := NumpyOp;
     inputs := i; outputs := o; mode := m;
     in_list := false; out_list := false;
     forward := λ _ _, Raise TypeError |}.

Definition TensorOp_init (name : string) (i o m : pyval) : op :=
  {| op_name := name; op_base := TensorOp;
     inputs := i; outputs := o; mode := m;
     in_list := false; out_list := false;
     forward := λ _ _, Raise TypeError |}.

(** ** util/op.py *)

(** *** flatten_operation *)

(** The argument of [flatten_operation]: an op, or a list whose
    elements are again ops or lists. *)
Inductive nested :=
  | One (o : op)
  | Many (l : list nested).

(** [x if isinstance(x, list) else [x]] *)
Definition as_list (x : nested) : list nested :=
  match x with
  | Many l => l
  | One _ => [x]
  end.

(** The loop replaces every element that is not a list by a singleton
    list; [chain.from_iterable] then concatenates one level. *)
Definition flatten_operation (ops : nested) : list nested :=
  let ops := as_list ops in
  let ops := map as_list ops in
  concat ops.

(** Depth-first, left-to-right leaf order. *)
Fixpoint leaves (t : nested) : list op :=
  match t with
  | One o => [o]
  | Many l => concat (map leaves l)
  end.

(** Nesting depth: 0 for an op, 1 for a list of ops, ... *)
Fixpoint depth (t : nested) : nat :=
  match t with
  | One _ => 0
  | Many l => S (foldr Nat.max 0 (map depth l))
  end.

(** *** get_op_from_mode *)

(** [op_mode if isinstance(op_mode, list) else [op_mode]] *)
Definition mode_list (m : pyval) : list atom :=
  match m with
  | PyList l => l
  | Single a => [a]
  end.

(** The test of the loop body. *)
Definition applies (current_mode : atom) (o : op) : bool :=
  let op_mode := mode_list (mode o) in
  py_in PyNone op_mode || py_in current_mode op_mode.

(** The [for] loop, with [selected_ops] as accumulator. *)
Fixpoint get_op_from_mode_loop (ops : list op) (current_mode : atom)
    (selected_ops : list op) : list op :=
  match ops with
  | [] => selected_ops
  | o :: rest =>
      if applies current_mode o
      then get_op_from_mode_loop rest current_mode (selected_ops ++ [o])
      else get_op_from_mode_loop rest current_mode selected_ops
  end.

Definition get_op_from_mode (ops : list op) (current_mode : atom) : list op :=
  get_op_from_mode_loop ops current_mode [].

(** *** verify_ops *)

(** The [inheritage] dictionary; a tuple of classes is a list. *)
Definition inheritage (class_name : string) : option (list base_class) :=
  if bool_decide (class_name = "RecordWriter") then Some [NumpyOp]
  else if bool_decide (class_name = "Pipeline") then Some [TensorOp; TensorFilter]
  else if bool_decide (class_name = "Network") then Some [TensorOp]
  else None.

Definition isinstance (o : op) (cls : list base_class) : bool :=
  bool_decide (op_base o ∈ cls).

Definition msg_inputs (o : op) (class_name : string) : string :=
  "must provide inputs for the operation '" +:+ op_name o +:+ "' in '"
    +:+ class_name +:+ "'".

Definition msg_outputs (o : op) (class_name : string) : string :=
  "must provide outputs for the operation '" +:+ op_name o +:+ "' in '"
    +:+ class_name +:+ "'".

Definition msg_inheritage (o : op) (class_name : string) : string :=
  "operation '" +:+ op_name o +:+ "' in class '" +:+ class_name
    +:+ "' doesn't have correct inheritage".

Definition msg_lost (o : op) (class_name : string) : string :=
  "must provide outputs for the operation '" +:+ op_name o +:+ "' in class '"
    +:+ class_name +:+ "', otherwise the result will be lost".

(** The body of the [for idx, op in enumerate(ops)] loop, from position
    [idx] on; [rest] is [ops[idx:]].  [inputs0] is the local variable
    [inputs], assigned once before the loop ([ops[0].inputs]) and never
    again; [old_inputs] is assigned in the source and not used. *)
Fixpoint verify_ops_loop (ops : list op) (class_name : string)
    (inheritage_class : list base_class) (inputs0 : pyval)
    (idx : nat) (rest : list op) : result unit :=
  match rest with
  | [] => Ok tt
  | o :: rest' =>
      if negb (isinstance o inheritage_class)
      then Raise (AssertionError (msg_inheritage o class_name))
      else
        let continue :=
          verify_ops_loop ops class_name inheritage_class inputs0 (S idx) rest' in
        match ops !! (S idx) with
        | Some next =>
            if truthy (inputs next) then
              let new_inputs := inputs next in
              if truthy new_inputs && negb (py_eq new_inputs inputs0) then
                if truthy (outputs o) then continue
                else Raise (AssertionError (msg_lost o class_name))
              else continue
            else continue
        | None => continue
        end
  end.

Definition verify_ops (ops : list op) (class_name : string) : result unit :=
  match inheritage class_name with
  | None => Raise (KeyError class_name)
  | Some inheritage_class =>
      match ops with
      | [] => Raise IndexError
      | first :: _ =>
          if negb (truthy (inputs first))
          then Raise (AssertionError (msg_inputs first class_name))
          else
            match last ops with
            | None => Raise IndexError
            | Some final =>
                if negb (truthy (outputs final))
                then Raise (AssertionError (msg_outputs final class_name))
                else
                  verify_ops_loop ops class_name inheritage_class
                    (inputs first) 0 ops
            end
      end
  end.

(** ** op/numpyop/meta/one_of.py *)

(** The assertions of the loop over [numpy_ops[1:]]. *)
Fixpoint OneOf_check (i o m : pyval) (rest : list op) : result unit :=
  match rest with
  | [] => Ok tt
  | c :: rest' =>
      if negb (py_eq i (inputs c))
      then Raise (AssertionError "All ops within a OneOf must share the same inputs")
      else if negb (py_eq o (outputs c))
      then Raise (AssertionError "All ops within a OneOf must share the same outputs")
      else if negb (py_eq m (mode c))
      then Raise (AssertionError "All ops within a OneOf must share the same mode")
      else OneOf_check i o m rest'
  end.

(** A OneOf object: the attributes stored by [NumpyOp.__init__] and the
    tuple of children. *)
Record OneOf := {
  oneof_inputs : pyval;
  oneof_outputs : pyval;
  oneof_mode : pyval;
  numpy_ops : list op
}.

(** [OneOf.__init__], called with the tuple of children;
    [numpy_ops[0]] raises IndexError on the empty tuple. *)
Definition OneOf_init (children : list op) : result OneOf :=
  match children with
  | [] => Raise IndexError
  | first :: rest =>
      let i := inputs first in
      let o := outputs first in
      let m := mode first in
      _ ← OneOf_check i o m rest;
      let base := NumpyOp_init "OneOf" i o m in
      Ok {| oneof_inputs := inputs base; oneof_outputs := outputs base;
            oneof_mode := mode base; numpy_ops := children |}
  end.

(** [random.choice(seq)]: [seq[randbelow(len(seq))]], IndexError on an
    empty sequence.  [r] is the draw of the random source, reduced
    below the length. *)
Definition random_choice {A} (r : nat) (seq : list A) : result A :=
  match seq !! (r `mod` length seq) with
  | Some x => Ok x
  | None => Raise IndexError
  end.

(** [OneOf.forward]; [r] is the draw made by this call. *)
Definition OneOf_forward (self : OneOf) (r : nat) (d : data) (st : state)
    : result data :=
  c ← random_choice r (numpy_ops self);
  forward c d st.

(** ** op/numpyop/univariate/binarize.py *)

(** [dat >= threshold]: an array of booleans.  The elements and the
    threshold are compared as the numbers they are; numpy first brings
    the threshold to the float type of the array, which leaves it as
    it is when that type holds it exactly (see [float32_exact]). *)
Definition ge_threshold (threshold : Q) (dat : ndarray Q) : ndarray bool :=
  amap (λ x, Qle_bool threshold x) dat.

(** A number that float32 holds exactly: a significand of at most 24
    bits times a power of two within the range of the format. *)
Definition float32_exact (t : Q) : Prop :=
  ∃ m e : Z, (Z.abs m < 2 ^ 24)%Z ∧ (-149 ≤ e)%Z ∧ (e ≤ 104)%Z
             ∧ (t == inject_Z m * 2 ^ e)%Q.

(** [.astype(np.float32)] on a boolean array. *)
Definition astype_float32 (b : ndarray bool) : ndarray Q :=
  amap (λ x : bool, if x then 1%Q else 0%Q) b.

(** [Binarize.forward]: a list comprehension over [data]; iterating
    over a single array goes through its first axis, and [None] is not
    iterable. *)
Definition Binarize_forward (threshold : Q) (d : data) (st : state)
    : result data :=
  match d with
  | DList l => Ok (DList (map (λ dat, astype_float32 (ge_threshold threshold dat)) l))
  | DArr (Axis rows) =>
      Ok (DList (map (λ dat, astype_float32 (ge_threshold threshold dat)) rows))
  | DArr (Scalar _) => Raise TypeError
  | DNone => Raise TypeError
  end.

(** [Binarize(threshold, inputs, outputs, mode)] *)
Definition Binarize (threshold : Q) (i o m : pyval) : op :=
  {| op_name := "Binarize"; op_base := NumpyOp;
     inputs := i; outputs := o; mode := m;
     in_list := true; out_list := true;
     forward := Binarize_forward threshold |}.

(** ** The object store

    Python objects live in a store and are handled through references,
    so that two names can denote one mutable object.  A reference is a
    position in the store; allocation appends. *)

Inductive obj :=
  | ONd (a : ndarray Q)
  | ODict (fields : list (string * nat))
  | OList (elems : list nat).

Definition alloc (o : obj) (h : list obj) : nat * list obj :=
  (length h, h ++ [o]).

(** The references held by an object. *)
Definition pointers (o : obj) : list nat :=
  match o with
  | ONd _ => []
  | ODict fields => fields.*2
  | OList elems => elems
  end.

(** [reach h x p]: [p] is [x] or is found by following references
    from [x]. *)
Inductive reach (h : list obj) (x : nat) : nat → Prop :=
  | reach_here : reach h x x
  | reach_next p o q :
      reach h x p → h !! p = Some o → q ∈ pointers o → reach h x q.

(** *** Dictionaries as ordered association lists *)

Fixpoint dict_get {V} (fields : list (string * V)) (key : string) : option V :=
  match fields with
  | [] => None
  | (k, v) :: rest => if bool_decide (k = key) then Some v else dict_get rest key
  end.

(** [d[key] = v]: an existing key keeps its position, a new key goes
    to the end. *)
Fixpoint dict_set {V} (fields : list (string * V)) (key : string) (v : V)
    : list (string * V) :=
  match fields with
  | [] => [(key, v)]
  | (k, w) :: rest =>
      if bool_decide (k = key) then (k, v) :: rest
      else (k, w) :: dict_set rest key v
  end.

(** *** Objects by value *)

Inductive value :=
  | VNd (a : ndarray Q)
  | VDict (fields : list (string * value))
  | VList (elems : list value).

(** The value under a reference, read to depth [fuel]. *)
Fixpoint reify (fuel : nat) (h : list obj) (x : nat) : option value :=
  match fuel with
  | 0 => None
  | S fuel' =>
      match h !! x with
      | Some (ONd a) => Some (VNd a)
      | Some (ODict fields) =>
          vs ← mapM (reify fuel' h) fields.*2; Some (VDict (zip fields.*1 vs))
      | Some (OList elems) =>
          vs ← mapM (reify fuel' h) elems; Some (VList vs)
      | None => None
      end
  end.

(** A sample mapping by value: string keys, array values. *)
Definition read_array (h : list obj) (p : nat) : option (ndarray Q) :=
  match h !! p with
  | Some (ONd a) => Some a
  | _ => None
  end.

Definition read_sample (h : list obj) (x : nat)
    : option (list (string * ndarray Q)) :=
  match h !! x with
  | Some (ODict fields) =>
      vs ← mapM (read_array h) fields.*2; Some (zip fields.*1 vs)
  | _ => None
  end.

(** A batch by value: a list of sample mappings. *)
Definition read_batch (h : list obj) (x : nat)
    : option (list (list (string * ndarray Q))) :=
  match h !! x with
  | Some (OList elems) => mapM (read_sample h) elems
  | _ => None
  end.

(** *** copy.deepcopy *)

(** The interpreter's recursion limit. *)
Definition recursion_limit : nat := 1000.

(** Copy the objects [xs] one after the other, threading the memo and
    the store. *)
Fixpoint copy_all
    (copy : nat → gmap nat nat * list obj → result (nat * (gmap nat nat * list obj)))
    (xs : list nat) (st : gmap nat nat * list obj)
    : result (list nat * (gmap nat nat * list obj)) :=
  match xs with
  | [] => Ok ([], st)
  | x :: xs' =>
      '(y, st) ← copy x st;
      '(ys, st) ← copy_all copy xs' st;
      Ok (y :: ys, st)
  end.

(** [deepcopy(x, memo)]: an object already copied is taken from the
    memo, so that sharing inside the copied structure is kept; an array
    is copied with its contents; a dict or list is rebuilt from the
    copies of what it holds.  One unit of [fuel] is one nested call.  A
    reference outside the store does not occur in a Python run. *)
Fixpoint deepcopy_rec (fuel : nat) (x : nat) (st : gmap nat nat * list obj)
    : result (nat * (gmap nat nat * list obj)) :=
  match fuel with
  | 0 => Raise RecursionError
  | S fuel' =>
      match st.1 !! x with
      | Some y => Ok (y, st)
      | None =>
          match st.2 !! x with
          | None => Raise SystemError
          | Some (ONd a) =>
              let '(y, h) := alloc (ONd a) st.2 in
              Ok (y, (<[x:=y]> st.1, h))
          | Some (ODict fields) =>
              '(ys, st') ← copy_all (deepcopy_rec fuel') fields.*2 st;
              let '(y, h) := alloc (ODict (zip fields.*1 ys)) st'.2 in
              Ok (y, (<[x:=y]> st'.1, h))
          | Some (OList elems) =>
              '(ys, st') ← copy_all (deepcopy_rec fuel') elems st;
              let '(y, h) := alloc (OList ys) st'.2 in
              Ok (y, (<[x:=y]> st'.1, h))
          end
      end
  end.

Definition deepcopy (x : nat) (h : list obj) : result (nat * list obj) :=
  '(y, st) ← deepcopy_rec recursion_limit x (∅, h);
  Ok (y, st.2).
Arguments deepcopy : simpl never.

(** ** The operation-chain executor *)

(** [for x in l: s = f(s, x)], stopping at the first exception. *)
Fixpoint foldM {A S} (f : S → A → result S) (s : S) (l : list A) : result S :=
  match l with
  | [] => Ok s
  | x :: l' => s' ← f s x; foldM f s' l'
  end.

(** [store[key]] and [store[key] = a] on a mapping held in the store at
    reference [x]; the values of a sample mapping are arrays and its
    keys are strings. *)
Definition store_get (x : nat) (h : list obj) (key : atom) : result (ndarray Q) :=
  match h !! x with
  | Some (ODict fields) =>
      match key with
      | PyNone => Raise (KeyError "None")
      | PyStr k =>
          match dict_get fields k with
          | None => Raise (KeyError k)
          | Some p =>
              match h !! p with
              | Some (ONd a) => Ok a
              | _ => Raise TypeError
              end
          end
      end
  | _ => Raise TypeError
  end.

Definition store_set (x : nat) (h : list obj) (key : atom) (a : ndarray Q)
    : result (list obj) :=
  match h !! x with
  | Some (ODict fields) =>
      match key with
      | PyNone => Raise TypeError
      | PyStr k =>
          let '(p, h) := alloc (ONd a) h in
          Ok (<[x := ODict (dict_set fields k p)]> h)
      end
  | _ => Raise TypeError
  end.

(** The same two operations on a mapping by value. *)
Definition sample_get (s : list (string * ndarray Q)) (key : atom)
    : result (ndarray Q) :=
  match key with
  | PyNone => Raise (KeyError "None")
  | PyStr k =>
      match dict_get s k with
      | None => Raise (KeyError k)
      | Some a => Ok a
      end
  end.

Definition sample_set (s : list (string * ndarray Q)) (key : atom) (a : ndarray Q)
    : result (list (string * ndarray Q)) :=
  match key with
  | PyNone => Raise TypeError
  | PyStr k => Ok (dict_set s k a)
  end.

(** A declared key or list of keys, as a list. *)
Abbreviation key_list := mode_list.

Section executor.
(** The executor is written once over the two access operations of a
    mapping of type [S]. *)
Context {S : Type}.
Variable get : S → atom → result (ndarray Q).
Variable set : S → atom → ndarray Q → result S.

(** Modelled from the spec: the input gathering of the executor
    (fastestimator.op.numpyop.numpyop is not part of the sources).
    With no declared inputs nothing is looked up and [forward]
    receives [None]; one key binds a single array unless the op asks
    for a list; several keys bind a list. *)
Definition gather (s : S) (o : op) : result data :=
  if truthy (inputs o) then
    vals ← traverse (get s) (key_list (inputs o));
    match vals with
    | [a] => if in_list o then Ok (DList [a]) else Ok (DArr a)
    | _ => Ok (DList vals)
    end
  else Ok DNone.

(** Modelled from the spec: the results are written back under the
    declared outputs, key by key. *)
Definition write (s : S) (o : op) (out : data) : result S :=
  vals ← match out with
         | DNone => Raise TypeError
         | DArr a => Ok [a]
         | DList l => Ok l
         end;
  foldM (λ s kv, set s kv.1 kv.2) s (zip (key_list (outputs o)) vals).

(** Modelled from the spec: one operation of the chain: gather,
    [forward], and the write-back unless the outputs are empty. *)
Definition run_op (st : state) (s : S) (o : op) : result S :=
  d ← gather s o;
  out ← forward o d st;
  if truthy (outputs o) then write s o out else Ok s.

(** Modelled from the spec: forward_numpyop, the operation-chain
    executor (section 4.4): the mode filter, then every remaining
    operation in order. *)
Definition forward_numpyop_on (ops : list op) (current_mode : atom) (s : S)
    : result S :=
  foldM (run_op {| st_mode := current_mode |}) s
    (get_op_from_mode ops current_mode).
End executor.

(** Modelled from the spec: forward_numpyop on a mapping in the store,
    which it mutates in place. *)
Definition forward_numpyop (ops : list op) (x : nat) (current_mode : atom)
    (h : list obj) : result (list obj) :=
  forward_numpyop_on (store_get x) (store_set x) ops current_mode h.

(** The executor on a mapping by value. *)
Definition forward_numpyop_pure (ops : list op) (current_mode : atom)
    (s : list (string * ndarray Q)) : result (list (string * ndarray Q)) :=
  forward_numpyop_on sample_get sample_set ops current_mode s.

(** ** Padding *)

(** Largest extent along every axis. *)
Fixpoint max_shape (s t : list nat) : list nat :=
  match s, t with
  | [], _ => t
  | _, [] => s
  | n :: s', m :: t' => Nat.max n m :: max_shape s' t'
  end.

Fixpoint shape {A} (a : ndarray A) : list nat :=
  match a with
  | Scalar _ => []
  | Axis rows => length rows :: foldr max_shape [] (map shape rows)
  end.

(** An array of the given shape filled with one value. *)
Fixpoint full (s : list nat) (fill : Q) : ndarray Q :=
  match s with
  | [] => Scalar fill
  | n :: s' => Axis (replicate n (full s' fill))
  end.

(** Pad at the end of every axis up to [target]. *)
Fixpoint pad_data (a : ndarray Q) (target : list nat) (fill : Q) : ndarray Q :=
  match a, target with
  | Axis rows, n :: s' =>
      Axis (map (λ r, pad_data r s' fill) rows
              ++ replicate (n - length rows) (full s' fill))
  | _, _ => a
  end.

(** [list(d.keys())] for a mapping in the store. *)
Definition store_keys (x : nat) (h : list obj) : result (list string) :=
  match h !! x with
  | Some (ODict fields) => Ok fields.*1
  | _ => Raise TypeError
  end.

(** The elements of a list in the store. *)
Definition store_elems (x : nat) (h : list obj) : result (list nat) :=
  match h !! x with
  | Some (OList elems) => Ok elems
  | _ => Raise TypeError
  end.

(** [l[0]] *)
Definition first_of {A} (l : list A) : result A :=
  match l with
  | [] => Raise IndexError
  | x :: _ => Ok x
  end.

(** Modelled from the spec: the padding of one key by pad_batch
    (fastestimator.util.util is not part of the sources; section 4.5,
    step 3c): every sample's array under the key is padded with the
    fill value to the largest extent found in the batch along each
    axis, and written back in place. *)
Definition pad_key (elems : list nat) (fill : Q) (h : list obj) (key : string)
    : result (list obj) :=
  arrs ← traverse (λ item, store_get item h (PyStr key)) elems;
  let target := foldr max_shape [] (map shape arrs) in
  foldM (λ h item,
           a ← store_get item h (PyStr key);
           store_set item h (PyStr key) (pad_data a target fill))
        h elems.

(** Modelled from the spec: pad_batch proper, over the keys of the
    first sample of the batch. *)
Definition pad_batch (batch : nat) (fill : Q) (h : list obj) : result (list obj) :=
  elems ← store_elems batch h;
  first ← first_of elems;
  keys ← store_keys first h;
  foldM (pad_key elems fill) h keys.

(** The same on a batch by value. *)
Definition pad_key_pure (fill : Q) (ss : list (list (string * ndarray Q)))
    (key : string) : result (list (list (string * ndarray Q))) :=
  arrs ← traverse (λ s, sample_get s (PyStr key)) ss;
  let target := foldr max_shape [] (map shape arrs) in
  traverse (λ s, a ← sample_get s (PyStr key);
                 sample_set s (PyStr key) (pad_data a target fill)) ss.

Definition pad_batch_pure (fill : Q) (ss : list (list (string * ndarray Q)))
    : result (list (list (string * ndarray Q))) :=
  first ← first_of ss;
  foldM (pad_key_pure fill) ss first.*1.

(** ** dataset/op_dataset.py *)

(** The wrapped dataset: [isinstance(dataset, BatchDataset)], the
    attribute [pad_value], and the stored items; [dataset[index]]
    hands out the stored object itself. *)
Record Dataset := {
  is_batch : bool;
  pad_value : option Q;
  stored : list nat
}.

Definition Dataset_getitem (ds : Dataset) (index : nat) : result nat :=
  match stored ds !! index with
  | Some x => Ok x
  | None => Raise IndexError
  end.

(** The attributes set by [OpDataset.__init__]: [self.dataset],
    [self.ops] and [self.mode]. *)
Record OpDataset := {
  self_dataset : Dataset;
  self_ops : list op;
  self_mode : atom
}.

(** [np.array(col)] on a list of arrays: the arrays stacked along a new
    first axis when they all have one shape; ValueError (inhomogeneous
    shape, numpy 1.24 and later) when two of them differ in shape.
    The rows of an array do not record the extent of the axes below an
    empty one, so the statements that rely on equal shapes ask for
    arrays without an empty axis. *)
Definition np_array (col : list (ndarray Q)) : result (ndarray Q) :=
  match col with
  | [] => Ok (Axis [])
  | a :: rest =>
      if forallb (λ b, bool_decide (shape b = shape a)) rest
      then Ok (Axis col) else Raise ValueError
  end.

(** [{key: np.array([item[key] for item in items]) for key in items[0]}]:
    for every key in turn the values are looked up in every sample
    (KeyError where one lacks the key) and stacked into a new array
    (ValueError where they differ in shape); the columns are gathered
    in a new dict. *)
Definition column (elems : list nat) (h : list obj) (key : string)
    : result (string * ndarray Q) :=
  col ← traverse (λ item, store_get item h (PyStr key)) elems;
  a ← np_array col;
  Ok (key, a).

Fixpoint alloc_fields (cols : list (string * ndarray Q)) (h : list obj)
    : list (string * nat) * list obj :=
  match cols with
  | [] => ([], h)
  | (key, a) :: cols' =>
      let '(p, h) := alloc (ONd a) h in
      let '(fields, h) := alloc_fields cols' h in
      ((key, p) :: fields, h)
  end.

Definition collate (items : nat) (h : list obj) : result (nat * list obj) :=
  elems ← store_elems items h;
  first ← first_of elems;
  keys ← store_keys first h;
  cols ← traverse (column elems h) keys;
  let '(fields, h) := alloc_fields cols h in
  Ok (alloc (ODict fields) h).

(** [OpDataset.__getitem__] *)
Definition OpDataset_getitem (self : OpDataset) (index : nat) (h : list obj)
    : result (nat * list obj) :=
  x ← Dataset_getitem (self_dataset self) index;
  '(items, h) ← deepcopy x h;
  if is_batch (self_dataset self) then
    elems ← store_elems items h;
    h ← foldM (λ h item, forward_numpyop (self_ops self) item (self_mode self) h)
              h elems;
    h ← match pad_value (self_dataset self) with
        | Some fill => pad_batch items fill h
        | None => Ok h
        end;
    collate items h
  else
    h ← forward_numpyop (self_ops self) items (self_mode self) h;
    Ok (items, h).

(** *** The wrapper by value *)

(** The stacked array of one key's value across every sample, in list
    order. *)
Definition stack_key (ss : list (list (string * ndarray Q))) (key : string)
    : result (string * ndarray Q) :=
  col ← traverse (λ s, sample_get s (PyStr key)) ss;
  a ← np_array col;
  Ok (key, a).

(** The collation as the specification words it: one mapping from each
    key of the first sample to the stacked array of that key's value
    across every sample, in list order. *)
Definition collate_spec (ss : list (list (string * ndarray Q)))
    : result (list (string * ndarray Q)) :=
  first ← first_of ss;
  traverse (stack_key ss) first.*1.

(** What [__getitem__] computes from the value of the stored item. *)
Definition getitem_batch_pure (self : OpDataset)
    (ss : list (list (string * ndarray Q)))
    : result (list (string * ndarray Q)) :=
  ss ← traverse (forward_numpyop_pure (self_ops self) (self_mode self)) ss;
  ss ← match pad_value (self_dataset self) with
       | Some fill => pad_batch_pure fill ss
       | None => Ok ss
       end;
  collate_spec ss.

(** *** A client that mutates what it was given

    [mutated owned h h']: the store [h'] is reached from [h] by
    allocating objects and by overwriting objects at references in
    [owned], with any contents. *)
Inductive mutated (owned : nat → Prop) : list obj → list obj → Prop :=
  | mutated_refl h : mutated owned h h
  | mutated_write h h' p o :
      owned p → p < length h → mutated owned (<[p:=o]> h) h' →
      mutated owned h h'
  | mutated_alloc h h' o :
      mutated owned (h ++ [o]) h' → mutated owned h h'.

(** The references a client holds after [__getitem__] returned [x] in
    store [h]: those reached from [x], and what it allocates later. *)
Definition owned_by (h : list obj) (x : nat) (p : nat) : Prop :=
  reach h x p ∨ length h ≤ p.

(** ** Predicates and relations of the statements *)

(** Objects above [n0] refer only to objects above [n0]. *)
Definition closed_from (n0 : nat) (h : list obj) : Prop :=
  ∀ q o, n0 ≤ q → h !! q = Some o → Forall (le n0) (pointers o).

(** A sample mapping and a batch as values of the general kind. *)
Definition sample_value (s : list (string * ndarray Q)) : value :=
  VDict (prod_map id VNd <$> s).

Definition batch_value (ss : list (list (string * ndarray Q))) : value :=
  VList (sample_value <$> ss).

(** What holds of the memo and the store while a structure of the
    store [h0] is copied: the store only grew; every copy is new, and
    holds the value of its original; distinct originals have distinct
    copies; new objects refer to new objects. *)
Record copy_inv (h0 : list obj) (st : gmap nat nat * list obj) : Prop := {
  inv_prefix : h0 `prefix_of` st.2;
  inv_range : ∀ p q, st.1 !! p = Some q → length h0 ≤ q < length st.2;
  inv_value : ∀ p q k v,
    st.1 !! p = Some q → reify k h0 p = Some v → reify k st.2 q = Some v;
  inv_inj : ∀ p p' q, st.1 !! p = Some q → st.1 !! p' = Some q → p = p';
  inv_closed : closed_from (length h0) st.2
}.

(** The fields of a dict hold the arrays of the sample [s], key by
    key. *)
Definition sample_at (h : list obj) (fields : list (string * nat))
    (s : list (string * ndarray Q)) : Prop :=
  Forall2 (λ f kv, f.1 = kv.1 ∧ read_array h f.2 = Some kv.2) fields s.

Definition is_dict (h : list obj) (x : nat) : Prop :=
  ∃ fields, h !! x = Some (ODict fields).

(** [updates L h h']: the store grew, objects outside [L] are as they
    were, and new objects refer to new objects. *)
Record updates (L : list nat) (h h' : list obj) : Prop := {
  upd_length : length h ≤ length h';
  upd_frame : ∀ p, p < length h → p ∉ L → h' !! p = h !! p;
  upd_closed : ∀ n0, Forall (le n0) L → closed_from n0 h → closed_from n0 h'
}.

(** Both computations raise the same exception, or both return, with
    related results. *)
Definition rel_result {S1 S2} (R : S1 → S2 → Prop)
    (r1 : result S1) (r2 : result S2) : Prop :=
  match r2 with
  | Ok s2 => ∃ s1, r1 = Ok s1 ∧ R s1 s2
  | Raise e => r1 = Raise e
  end.

(** The mappings at [elems] hold the samples [ss], one by one. *)
Definition batch_at (h : list obj) (elems : list nat)
    (ss : list (list (string * ndarray Q))) : Prop :=
  Forall2 (λ x s, read_sample h x = Some s) elems ss.

(** The stored item is what the wrapper expects: a sample mapping, or
    for a batch dataset a list of sample mappings that are distinct
    objects. *)
Definition stored_ok (self : OpDataset) (h : list obj) (x : nat) : Prop :=
  if is_batch (self_dataset self)
  then ∃ elems ss, h !! x = Some (OList elems) ∧ NoDup elems
         ∧ batch_at h elems ss
  else ∃ s, read_sample h x = Some s.

(** What [__getitem__] returns, from the value of the stored item. *)
Definition getitem_sample_pure (self : OpDataset)
    (s : list (string * ndarray Q)) : result (list (string * ndarray Q)) :=
  forward_numpyop_pure (self_ops self) (self_mode self) s.

(** The result [y] in store [h'] of a call made in store [h0]: the
    objects of [h0] are as they were, and nothing reached from [y] is
    an object of [h0]. *)
Definition isolated (h0 h' : list obj) (y : nat) : Prop :=
  take (length h0) h' = h0 ∧ length h0 ≤ length h'
  ∧ ∀ p, reach h' y p → length h0 ≤ p.

(** Two operations with the same declared contract. *)
Definition same_contract (c o : op) : Prop :=
  inputs o = inputs c ∧ outputs o = outputs c ∧ mode o = mode c.

(** An input element [x] and its output [y]. *)
Definition binarized (t x y : Q) : Prop :=
  (¬ (x < t)%Q → y = 1%Q) ∧ ((x < t)%Q → y = 0%Q).

(** ** Example operations and stores *)

(** The three operations of the failing list: B follows A and reads
    what A wrote; C follows B and reads "x" again, the key the first
    operation reads; B declares no outputs. *)
Definition chain_A : op :=
  TensorOp_init "A" (Single (PyStr "x")) (Single (PyStr "y")) (Single PyNone).

Definition chain_B : op :=
  TensorOp_init "B" (Single (PyStr "y")) (Single PyNone) (Single PyNone).

Definition chain_C : op :=
  TensorOp_init "C" (Single (PyStr "x")) (Single (PyStr "z")) (Single PyNone).

(** The sample of the scenario: the array at reference 0, the mapping
    at reference 1. *)
Definition scenario_store : list obj :=
  [ONd (Axis [Scalar 0.2%Q; Scalar 0.7%Q]); ODict [("x", 0)]].

(** A wrapper around a dataset of one item, the sample of the
    scenario, with the Binarize operation. *)
Definition scenario_wrapper : OpDataset :=
  {| self_dataset := {| is_batch := false; pad_value := None; stored := [1] |};
     self_ops := [Binarize 0.5%Q (Single (PyStr "x")) (Single (PyStr "y"))
                    (Single PyNone)];
     self_mode := PyStr "train" |}.

(** The store after [__getitem__(0)]: the copy of the array at 2, the
    returned mapping at 3, the array written under "y" at 4. *)
Definition scenario_after : list obj :=
  scenario_store ++
  [ONd (Axis [Scalar 0.2%Q; Scalar 0.7%Q]);
   ODict [("x", 2); ("y", 4)];
   ONd (Axis [Scalar 0%Q; Scalar 1%Q])].

(** The client overwrites the array it was given under "x". *)
Definition scenario_mutated : list obj :=
  <[2 := ONd (Axis [Scalar 9%Q; Scalar 9%Q])]> scenario_after.

(** A batch dataset of one item: two samples with arrays of different
    lengths under "x", at references 2 and 3, in the list at 4; padded
    with 0. *)
Definition batch_store : list obj :=
  [ONd (Axis [Scalar 0.2%Q; Scalar 0.7%Q]);
   ONd (Axis [Scalar 0.9%Q]);
   ODict [("x", 0)];
   ODict [("x", 1)];
   OList [2; 3]].

Definition batch_wrapper : OpDataset :=
  {| self_dataset := {| is_batch := true; pad_value := Some 0%Q; stored := [4] |};
     self_ops := [Binarize 0.5%Q (Single (PyStr "x")) (Single (PyStr "y"))
                    (Single PyNone)];
     self_mode := PyStr "train" |}.

(** ** op/numpyop/univariate/reshape.py *)

(** The [shape] argument: an int or a tuple of ints. *)
Inductive shape_arg :=
  | ShapeInt (n : Z)
  | ShapeTuple (dims : list Z).

Definition dims_of (s : shape_arg) : list Z :=
  match s with
  | ShapeInt n => [n]
  | ShapeTuple dims => dims
  end.

(** Number of elements of an array of shape [s]. *)
Definition size_of (s : list nat) : nat := foldr Nat.mul 1 s.

(** The target shape numpy works out for an array of [size] elements:
    a negative dimension (-1 by convention, any negative number in
    effect) is the unknown one.  Without it the product of the
    dimensions must be [size]; one unknown dimension stands for the
    quotient of [size] by the product of the others, which must be
    exact and not by zero; two or more are refused.  [None] is numpy's
    ValueError. *)
Definition resolve_shape (size : nat) (dims : list Z) : option (list nat) :=
  let k := size_of (Z.to_nat <$> filter (λ d, (0 ≤ d)%Z) dims) in
  match length (filter (λ d, (d < 0)%Z) dims) with
  | 0 => if bool_decide (k = size) then Some (Z.to_nat <$> dims) else None
  | 1 =>
      if bool_decide (k = 0) then None
      else if bool_decide (size `mod` k = 0)
      then Some ((λ d, if bool_decide (d < 0)%Z then size `div` k
                       else Z.to_nat d) <$> dims)
      else None
  | _ => None
  end.

(** [k] consecutive chunks of [n] elements. *)
Fixpoint chunks {A} (n k : nat) (l : list A) : list (list A) :=
  match k with
  | 0 => []
  | S k' => take n l :: chunks n k' (drop n l)
  end.

(** The array of shape [s] whose elements in row-major order are [l]. *)
Fixpoint build {A} (s : list nat) (l : list A) : option (ndarray A) :=
  match s with
  | [] => match l with
          | [x] => Some (Scalar x)
          | _ => None
          end
  | n :: s' => rows ← mapM (build s') (chunks (size_of s') n l); Some (Axis rows)
  end.

(** [np.reshape(a, dims)], in row-major order. *)
Definition np_reshape {A} (a : ndarray A) (dims : list Z) : option (ndarray A) :=
  s ← resolve_shape (length (elements a)) dims; build s (elements a).

(** [Reshape._apply_reshape] *)
Definition Reshape_apply_reshape (shape : shape_arg) (data : ndarray Q)
    : option (ndarray Q) :=
  np_reshape data (dims_of shape).

(** [Reshape.forward]: the list comprehension over [data]; [None] when
    some [np.reshape] raises. *)
Definition Reshape_forward (shape : shape_arg) (data : list (ndarray Q))
    (st : state) : option (list (ndarray Q)) :=
  mapM (Reshape_apply_reshape shape) data.

(** An array that has exactly the shape [s], every row included. *)
Fixpoint has_shape {A} (a : ndarray A) (s : list nat) : bool :=
  match a, s with
  | Scalar _, [] => true
  | Axis rows, n :: s' =>
      bool_decide (length rows = n) && forallb (λ r, has_shape r s') rows
  | _, _ => false
  end.

(** ** showcase/image_generation/dcgan_mnist.py *)

(** [Myrescale.forward]: the cast of the uint8 image to float, then
    [(data - 127.5) / 127.5] on every element.  The arithmetic is
    exact here and rounded to float32 in the code: on pixel values, 0
    to 255, the difference is exact in float32 and the rounding of the
    quotient keeps the order and the two ends, so the statements about
    this function bound the values by 0 and 255. *)
Definition Myrescale_forward (data : ndarray Z) (st : state) : ndarray Q :=
  amap (λ x, ((inject_Z x - 127.5) / 127.5)%Q) data.

(** ** Further example stores *)


(** A wrapper without operations and without padding around a batch
    dataset of one item. *)
Definition ragged_wrapper : OpDataset :=
  {| self_dataset := {| is_batch := true; pad_value := None; stored := [4] |};
     self_ops := [];
     self_mode := PyStr "train" |}.

(** A batch dataset whose only item is the empty list. *)
Definition empty_batch_store : list obj := [OList []].

Definition empty_batch_wrapper : OpDataset :=
  {| self_dataset := {| is_batch := true; pad_value := Some 0%Q; stored := [0] |};
     self_ops := [Binarize 0.5%Q (Single (PyStr "x")) (Single (PyStr "y"))
                    (Single PyNone)];
     self_mode := PyStr "train" |}.

(** A wrapper without operations around the dataset of the scenario. *)
Definition plain_wrapper : OpDataset :=
  {| self_dataset := {| is_batch := false; pad_value := None; stored := [1] |};
     self_ops := [];
     self_mode := PyStr "train" |}.

(** * Properties *)

(** ** The mode filter *)

Lemma get_op_from_mode_loop_filter ops m acc :
  get_op_from_mode_loop ops m acc = acc ++ List.filter (applies m) ops.
Proof.
  revert acc. induction ops as [|o ops IH]; intros acc; simpl.
  - by rewrite app_nil_r.
  - destruct (applies m o); rewrite IH; [|done].
    by rewrite <- app_assoc.
Qed.

Lemma get_op_from_mode_filter ops m :
  get_op_from_mode ops m = List.filter (applies m) ops.
Proof. unfold get_op_from_mode. by rewrite get_op_from_mode_loop_filter. Qed.

Lemma get_op_from_mode_cons o ops m :
  get_op_from_mode (o :: ops) m =
  if applies m o then o :: get_op_from_mode ops m else get_op_from_mode ops m.
Proof. rewrite !get_op_from_mode_filter. simpl. by destruct (applies m o). Qed.

Lemma get_op_from_mode_app ops1 ops2 m :
  get_op_from_mode (ops1 ++ ops2) m =
  get_op_from_mode ops1 m ++ get_op_from_mode ops2 m.
Proof. rewrite !get_op_from_mode_filter. apply List.filter_app. Qed.

Lemma get_op_from_mode_applies ops m :
  Forall (λ o, applies m o = true) (get_op_from_mode ops m).
Proof.
  induction ops as [|o ops IH]; [constructor|].
  rewrite get_op_from_mode_cons.
  destruct (applies m o) eqn:E; [by constructor | done].
Qed.

Lemma get_op_from_mode_fixed ops m :
  Forall (λ o, applies m o = true) ops → get_op_from_mode ops m = ops.
Proof.
  induction 1 as [|o ops Ho _ IH]; [done|].
  rewrite get_op_from_mode_cons, Ho. by f_equal.
Qed.

Lemma get_op_from_mode_sublist ops m :
  get_op_from_mode ops m `sublist_of` ops.
Proof.
  induction ops as [|o ops IH]; [constructor|].
  rewrite get_op_from_mode_cons.
  destruct (applies m o); by constructor.
Qed.

(** C4: filtering twice with one mode is filtering once, and the
    result is an ordered sublist of the operation list. *)
Theorem get_op_from_mode_idempotent (ops : list op) (m : atom) :
  get_op_from_mode (get_op_from_mode ops m) m = get_op_from_mode ops m
  ∧ get_op_from_mode ops m `sublist_of` ops.
Proof.
  split.
  - apply get_op_from_mode_fixed, get_op_from_mode_applies.
  - apply get_op_from_mode_sublist.
Qed.

(** C9: an operation whose mode is a list with [None] among its
    elements is selected for every target mode, at its place in the
    list. *)
Theorem get_op_from_mode_none_in_list
    (before after : list op) (o : op) (l : list atom) (m : atom) :
  mode o = PyList l → PyNone ∈ l →
  get_op_from_mode (before ++ o :: after) m
  = get_op_from_mode before m ++ o :: get_op_from_mode after m.
Proof.
  intros Hmode Hin.
  rewrite get_op_from_mode_app, get_op_from_mode_cons.
  unfold applies, py_in. rewrite Hmode. simpl.
  by rewrite (bool_decide_eq_true_2 _ Hin).
Qed.

Lemma get_op_from_mode_none_in_list_witness :
  let o := NumpyOp_init "Flip" (Single (PyStr "x")) (Single (PyStr "x"))
             (PyList [PyStr "train"; PyNone]) in
  let e := NumpyOp_init "Crop" (Single (PyStr "x")) (Single (PyStr "x"))
             (Single (PyStr "eval")) in
  get_op_from_mode ([e] ++ o :: [e]) (PyStr "test")
  = get_op_from_mode [e] (PyStr "test") ++ o :: get_op_from_mode [e] (PyStr "test").
Proof.
  intros o e.
  apply (get_op_from_mode_none_in_list [e] [e] o [PyStr "train"; PyNone]).
  - reflexivity.
  - compute_done.
Defined.

(** ** The graph-contract verifier *)

(** What the loop establishes: the types, and for every operation
    followed by one with non-empty inputs different from those of the
    FIRST operation, non-empty outputs. *)
Lemma verify_ops_loop_ok l cn cls inputs0 idx rest :
  verify_ops_loop l cn cls inputs0 idx rest = Ok tt →
  ∀ k o next, rest !! k = Some o → l !! S (idx + k) = Some next →
    isinstance o cls = true
    ∧ (truthy (inputs next) = true → inputs next ≠ inputs0 →
       truthy (outputs o) = true).
Proof.
  revert idx. induction rest as [|o' rest IH]; intros idx Hok k o next Hk Hn.
  - by rewrite lookup_nil in Hk.
  - simpl in Hok.
    destruct (isinstance o' cls) eqn:Hinst; simpl in Hok; [|done].
    destruct k as [|k]; simpl in Hk.
    + injection Hk as ->. rewrite Nat.add_0_r in Hn. rewrite Hn in Hok.
      split; [done|]. intros Ht Hne. rewrite Ht in Hok. simpl in Hok.
      unfold py_eq in Hok. rewrite bool_decide_eq_false_2 in Hok by done.
      simpl in Hok. by destruct (truthy (outputs o)).
    + apply (IH (S idx)) with (k := k) (next := next); [|done|].
      * destruct (l !! S idx) as [nx|]; [|done].
        destruct (truthy (inputs nx)); simpl in Hok; [|done].
        destruct (negb (py_eq (inputs nx) inputs0)); [|done].
        by destruct (truthy (outputs o')).
      * by rewrite <- Nat.add_succ_comm in Hn.
Qed.

Lemma verify_ops_adjacent l cn first i o next :
  verify_ops l cn = Ok tt → head l = Some first →
  l !! i = Some o → l !! S i = Some next →
  truthy (inputs next) = true → inputs next ≠ inputs first →
  truthy (outputs o) = true.
Proof.
  unfold verify_ops. intros Hok Hhd Hi Hn.
  destruct (inheritage cn) as [cls|]; [|done].
  destruct l as [|f l']; [done|]. injection Hhd as ->.
  destruct (truthy (inputs first)); cbn [negb] in Hok; [|done].
  destruct (last (first :: l')) as [final|]; [|done].
  destruct (truthy (outputs final)); cbn [negb] in Hok; [|done].
  intros Ht Hne.
  by apply (verify_ops_loop_ok _ _ _ _ _ _ Hok i o next).
Qed.

(** C7: an operation list whose first operation has empty inputs, or
    whose last operation has empty outputs, is rejected, by a failed
    assertion when the class name is a known one; an accepted list has
    a first operation with non-empty inputs and a last operation with
    non-empty outputs. *)
Theorem verify_ops_boundaries (l : list op) (cn : string) :
  (∀ first, head l = Some first → truthy (inputs first) = false →
     raises (verify_ops l cn)
     ∧ (is_Some (inheritage cn) → contract_violation (verify_ops l cn)))
  ∧ (∀ final, last l = Some final → truthy (outputs final) = false →
     raises (verify_ops l cn)
     ∧ (is_Some (inheritage cn) → contract_violation (verify_ops l cn)))
  ∧ (verify_ops l cn = Ok tt →
     ∃ first final, head l = Some first ∧ last l = Some final
       ∧ truthy (inputs first) = true ∧ truthy (outputs final) = true).
Proof.
  unfold verify_ops, raises, contract_violation. split_and!.
  - intros first Hhd Hin. destruct l as [|f l']; [done|]. injection Hhd as ->.
    destruct (inheritage cn) as [cls|].
    + rewrite Hin. simpl. eauto.
    + split; [eauto|]. by intros [? ?].
  - intros final Hlast Hout. destruct l as [|f l']; [done|].
    destruct (inheritage cn) as [cls|].
    + destruct (truthy (inputs f)); simpl; [|eauto].
      rewrite Hlast, Hout. simpl. eauto.
    + split; [eauto|]. by intros [? ?].
  - intros Hok. destruct (inheritage cn) as [cls|]; [|done].
    destruct l as [|f l']; [done|].
    destruct (truthy (inputs f)) eqn:Hin; simpl in Hok; [|done].
    destruct (last (f :: l')) as [final|] eqn:Hlast; [|done].
    destruct (truthy (outputs final)) eqn:Hout; simpl in Hok; [|done].
    by exists f, final.
Qed.

(** C1: the list [A, B, C] is accepted although C's inputs differ from
    B's and B has no outputs: the loop compares the next inputs with
    the first operation's inputs, not with those of the operation
    itself. *)
Theorem verify_ops_accepts_lost_result :
  verify_ops [chain_A; chain_B; chain_C] "Network" = Ok tt
  ∧ [chain_A; chain_B; chain_C] !! 1 = Some chain_B
  ∧ [chain_A; chain_B; chain_C] !! 2 = Some chain_C
  ∧ truthy (inputs chain_C) = true
  ∧ inputs chain_C ≠ inputs chain_B
  ∧ truthy (outputs chain_B) = false.
Proof. split_and!; try reflexivity. discriminate. Qed.

(** ** flatten_operation *)

Lemma depth_Many_le n l :
  depth (Many l) ≤ S n → Forall (λ t, depth t ≤ n) l.
Proof.
  simpl. intros H. apply Nat.succ_le_mono in H.
  induction l as [|t l IH]; constructor; simpl in H; [lia|].
  apply IH. lia.
Qed.

Lemma flat_list_leaves l :
  Forall (λ t, depth t ≤ 0) l → l = One <$> concat (map leaves l).
Proof.
  induction 1 as [|t l Ht _ IH]; [done|].
  destruct t as [o|l']; [|simpl in Ht; lia].
  simpl. by f_equal.
Qed.

Lemma as_list_leaves t :
  depth t ≤ 1 → as_list t = One <$> leaves t.
Proof.
  destruct t as [o|l]; [done|]. intros H. simpl.
  by apply flat_list_leaves, depth_Many_le.
Qed.

(** C2, as amended: on an op, a list of ops, or a list whose elements
    are ops or lists of ops, the result is the leaves in depth-first
    left-to-right order. *)
Theorem flatten_operation_leaves (L : nested) :
  depth L ≤ 2 → flatten_operation L = One <$> leaves L.
Proof.
  unfold flatten_operation. destruct L as [o|l]; [done|].
  intros H. apply depth_Many_le in H. simpl.
  induction H as [|t l Ht _ IH]; [done|].
  simpl. rewrite fmap_app, IH. f_equal. by apply as_list_leaves.
Qed.

Lemma flatten_operation_leaves_witness :
  flatten_operation (Many [One chain_A; Many [One chain_B; One chain_C]])
  = One <$> leaves (Many [One chain_A; Many [One chain_B; One chain_C]]).
Proof. apply flatten_operation_leaves. simpl. lia. Defined.

(** C2, as stated, fails at depth three: the inner list [[B]] is left
    in the result as a list. *)
Lemma flatten_operation_deep_counterexample :
  flatten_operation (Many [Many [One chain_A; Many [One chain_B]]])
    = [One chain_A; Many [One chain_B]]
  ∧ flatten_operation (Many [Many [One chain_A; Many [One chain_B]]])
    ≠ One <$> leaves (Many [Many [One chain_A; Many [One chain_B]]]).
Proof. split; [reflexivity | discriminate]. Qed.

(** ** OneOf *)

Lemma OneOf_check_ok c rest :
  Forall (same_contract c) rest →
  OneOf_check (inputs c) (outputs c) (mode c) rest = Ok tt.
Proof.
  induction 1 as [|o rest (Hi & Ho & Hm) _ IH]; [done|].
  simpl. unfold py_eq. rewrite Hi, Ho, Hm.
  by rewrite !bool_decide_eq_true_2.
Qed.

Lemma OneOf_check_fails c rest :
  ¬ Forall (same_contract c) rest →
  contract_violation (OneOf_check (inputs c) (outputs c) (mode c) rest).
Proof.
  unfold contract_violation.
  induction rest as [|o rest IH]; intros Hne.
  - destruct Hne. constructor.
  - simpl. unfold py_eq.
    destruct (decide (inputs c = inputs o)) as [Hi|Hi];
      [rewrite (bool_decide_eq_true_2 _ Hi)
      |rewrite (bool_decide_eq_false_2 _ Hi); simpl; eauto].
    destruct (decide (outputs c = outputs o)) as [Ho|Ho];
      [rewrite (bool_decide_eq_true_2 _ Ho)
      |rewrite (bool_decide_eq_false_2 _ Ho); simpl; eauto].
    destruct (decide (mode c = mode o)) as [Hm|Hm];
      [rewrite (bool_decide_eq_true_2 _ Hm)
      |rewrite (bool_decide_eq_false_2 _ Hm); simpl; eauto].
    simpl. apply IH. intros HF. apply Hne. by constructor.
Qed.

(** C5: construction from a first child and further children fails
    with a failed assertion when some child differs from the first in
    inputs, outputs or mode; otherwise it succeeds and the OneOf has
    the shared inputs, outputs and mode, and holds the children. *)
Theorem OneOf_init_contract (first : op) (rest : list op) :
  (¬ Forall (same_contract first) rest →
     contract_violation (OneOf_init (first :: rest)))
  ∧ (Forall (same_contract first) rest →
     OneOf_init (first :: rest)
     = Ok {| oneof_inputs := inputs first; oneof_outputs := outputs first;
             oneof_mode := mode first; numpy_ops := first :: rest |}).
Proof.
  unfold OneOf_init. split; intros H.
  - destruct (OneOf_check_fails _ _ H) as [msg ->]. by exists msg.
  - by rewrite (OneOf_check_ok _ _ H).
Qed.

(** C10: a OneOf of one child is constructed without error, and its
    [forward] is the child's [forward], whatever the random draw. *)
Theorem OneOf_singleton (c : op) :
  ∃ self, OneOf_init [c] = Ok self
    ∧ ∀ (r : nat) (d : data) (st : state),
        OneOf_forward self r d st = forward c d st.
Proof.
  eexists. split; [reflexivity|].
  intros r d st. unfold OneOf_forward, random_choice.
  change (length (numpy_ops _)) with 1. by rewrite Nat.mod_1_r.
Qed.

(** ** Binarize *)

Lemma ndarray_induction {A} (P : ndarray A → Prop) :
  (∀ x, P (Scalar x)) →
  (∀ rows, Forall P rows → P (Axis rows)) →
  ∀ a, P a.
Proof.
  intros Hs Ha. fix IH 1. intros [x|rows]; [apply Hs|].
  apply Ha. induction rows as [|r rows IHrows]; constructor; [apply IH|done].
Qed.

Lemma binarized_elem t x :
  binarized t x (if Qle_bool t x then 1%Q else 0%Q).
Proof.
  unfold binarized. destruct (Qle_bool t x) eqn:E.
  - apply Qle_bool_iff in E. split; [done|].
    intros Hlt. by apply Qlt_not_le in Hlt.
  - split; [|done]. intros Hn. apply Qnot_lt_le in Hn.
    apply Qle_bool_iff in Hn. congruence.
Qed.

Lemma shape_amap {A B} (f : A → B) a : shape (amap f a) = shape a.
Proof.
  induction a as [x|rows IH] using ndarray_induction; [done|].
  simpl. rewrite length_map. f_equal.
  induction IH as [|r rows Hr _ IHrows]; [done|].
  simpl. by rewrite Hr, IHrows.
Qed.

Lemma binarize_elements t a :
  Forall2 (binarized t) (elements a)
    (elements (astype_float32 (ge_threshold t a))).
Proof.
  unfold astype_float32, ge_threshold.
  induction a as [x|rows IH] using ndarray_induction.
  - simpl. constructor; [apply binarized_elem | constructor].
  - simpl. induction IH as [|r rows Hr _ IHrows]; [constructor|].
    simpl. by apply Forall2_app.
Qed.

(** C8: with threshold 0.5 every element not less than 0.5 becomes 1
    and every element less than 0.5 becomes 0, in arrays of unchanged
    shape; run on the sample {"x": [0.2, 0.7]} with inputs "x" and
    outputs "y", the mapping keeps "x" and gains "y" = [0, 1]. *)
Theorem Binarize_half :
  (∀ (l : list (ndarray Q)) (st : state),
     ∃ out, Binarize_forward 0.5%Q (DList l) st = Ok (DList out)
       ∧ Forall2 (λ a b, shape b = shape a
                    ∧ Forall2 (binarized 0.5%Q) (elements a) (elements b))
                 l out)
  ∧ (∀ m : atom,
     ∃ h, forward_numpyop
            [Binarize 0.5%Q (Single (PyStr "x")) (Single (PyStr "y"))
               (Single PyNone)] 1 m scenario_store = Ok h
       ∧ read_sample h 1
         = Some [("x", Axis [Scalar 0.2%Q; Scalar 0.7%Q]);
                 ("y", Axis [Scalar 0%Q; Scalar 1%Q])]).
Proof.
  split.
  - intros l st. eexists. split; [reflexivity|].
    induction l as [|a l IH]; [constructor|].
    simpl. constructor; [|exact IH]. split.
    + unfold astype_float32, ge_threshold. by rewrite !shape_amap.
    + apply binarize_elements.
  - intros m. eexists. split; reflexivity.
Qed.

(** ** The store: reading by value *)

Lemma reify_prefix n (h h' : list obj) x v :
  h `prefix_of` h' → reify n h x = Some v → reify n h' x = Some v.
Proof.
  intros Hpre. revert x v. induction n as [|n IH]; intros x v; [done|].
  simpl. destruct (h !! x) as [o|] eqn:Hx; [|done].
  rewrite (prefix_lookup_Some _ _ _ _ Hx Hpre).
  destruct o as [a|fields|elems]; [done| |].
  - destruct (mapM (reify n h) fields.*2) as [vs|] eqn:Hm; [|done].
    intros [= <-]. apply mapM_Some in Hm.
    assert (mapM (reify n h') fields.*2 = Some vs) as ->; [|done].
    apply mapM_Some. eapply Forall2_impl; [exact Hm|]. intros; by apply IH.
  - destruct (mapM (reify n h) elems) as [vs|] eqn:Hm; [|done].
    intros [= <-]. apply mapM_Some in Hm.
    assert (mapM (reify n h') elems = Some vs) as ->; [|done].
    apply mapM_Some. eapply Forall2_impl; [exact Hm|]. intros; by apply IH.
Qed.

Lemma read_array_prefix (h h' : list obj) p a :
  h `prefix_of` h' → read_array h p = Some a → read_array h' p = Some a.
Proof.
  unfold read_array. intros Hpre.
  destruct (h !! p) as [o|] eqn:Hp; [|done].
  by rewrite (prefix_lookup_Some _ _ _ _ Hp Hpre).
Qed.

Lemma read_sample_prefix (h h' : list obj) x s :
  h `prefix_of` h' → read_sample h x = Some s → read_sample h' x = Some s.
Proof.
  unfold read_sample. intros Hpre.
  destruct (h !! x) as [o|] eqn:Hx; [|done].
  rewrite (prefix_lookup_Some _ _ _ _ Hx Hpre).
  destruct o as [a|fields|elems]; [done| |done].
  destruct (mapM (read_array h) fields.*2) as [vs|] eqn:Hm; [|done].
  intros [= <-]. apply mapM_Some in Hm.
  assert (mapM (read_array h') fields.*2 = Some vs) as ->; [|done].
  apply mapM_Some. eapply Forall2_impl; [exact Hm|].
  intros; by eapply read_array_prefix.
Qed.

Lemma read_batch_prefix (h h' : list obj) x ss :
  h `prefix_of` h' → read_batch h x = Some ss → read_batch h' x = Some ss.
Proof.
  unfold read_batch. intros Hpre.
  destruct (h !! x) as [o|] eqn:Hx; [|done].
  rewrite (prefix_lookup_Some _ _ _ _ Hx Hpre).
  destruct o as [a|fields|elems]; [done|done|].
  intros Hm. apply mapM_Some in Hm. apply mapM_Some.
  eapply Forall2_impl; [exact Hm|].
  intros; by eapply read_sample_prefix.
Qed.

Lemma reify_array n h p a :
  reify (S n) h p = Some (VNd a) ↔ read_array h p = Some a.
Proof.
  unfold read_array. simpl. destruct (h !! p) as [[b|fields|elems]|].
  - split; congruence.
  - destruct (mapM _ _); simpl; split; done.
  - destruct (mapM _ _); simpl; split; done.
  - done.
Qed.

Lemma zip_fmap_VNd (keys : list string) (vs : list (ndarray Q)) :
  zip keys (VNd <$> vs) = prod_map id VNd <$> zip keys vs.
Proof.
  revert vs. induction keys as [|k keys IH]; intros [|v vs]; simpl; try done.
  by rewrite IH.
Qed.

Lemma zip_VNd_inv (keys : list string) (ws : list value) (s : list (string * ndarray Q)) :
  length keys = length ws →
  zip keys ws = prod_map id VNd <$> s →
  ∃ vs, ws = VNd <$> vs ∧ s = zip keys vs.
Proof.
  revert ws s. induction keys as [|k keys IH]; intros [|w ws] [|[k' a] s] Hlen Heq;
    simpl in *; try done.
  - by exists [].
  - injection Heq as -> -> Heq. injection Hlen as Hlen.
    destruct (IH _ _ Hlen Heq) as (vs & -> & ->). by exists (a :: vs).
Qed.

Lemma reify_sample n h x s :
  reify (S (S n)) h x = Some (sample_value s) ↔ read_sample h x = Some s.
Proof.
  unfold read_sample, sample_value.
  change (reify (S (S n)) h x) with
    (match h !! x with
     | Some (ONd a) => Some (VNd a)
     | Some (ODict fields) =>
         vs ← mapM (reify (S n) h) fields.*2; Some (VDict (zip fields.*1 vs))
     | Some (OList elems) =>
         vs ← mapM (reify (S n) h) elems; Some (VList vs)
     | None => None
     end).
  destruct (h !! x) as [[b|fields|elems]|]; try done.
  - split.
    + destruct (mapM (reify (S n) h) fields.*2) as [ws|] eqn:Hm; [|done].
      simpl. intros [= Heq]. apply mapM_Some in Hm.
      destruct (zip_VNd_inv fields.*1 ws s) as (vs & -> & ->); [|done|].
      { rewrite <- (Forall2_length _ _ _ Hm). by rewrite !length_fmap. }
      assert (mapM (read_array h) fields.*2 = Some vs) as ->; [|done].
      apply mapM_Some. apply Forall2_fmap_r in Hm.
      eapply Forall2_impl; [exact Hm|]. intros p a Hp. by apply reify_array in Hp.
    + destruct (mapM (read_array h) fields.*2) as [vs|] eqn:Hm; [|done].
      intros Heq. simpl in Heq. injection Heq as <-. apply mapM_Some in Hm.
      assert (mapM (reify (S n) h) fields.*2 = Some (VNd <$> vs)) as ->.
      { apply mapM_Some, Forall2_fmap_r.
        eapply Forall2_impl; [exact Hm|]. intros p a Hp. by apply reify_array. }
      simpl. by rewrite zip_fmap_VNd.
  - destruct (mapM _ _); simpl; split; done.
Qed.

Lemma reify_batch n h x ss :
  reify (S (S (S n))) h x = Some (batch_value ss) ↔ read_batch h x = Some ss.
Proof.
  unfold read_batch, batch_value.
  change (reify (S (S (S n))) h x) with
    (match h !! x with
     | Some (ONd a) => Some (VNd a)
     | Some (ODict fields) =>
         vs ← mapM (reify (S (S n)) h) fields.*2; Some (VDict (zip fields.*1 vs))
     | Some (OList elems) =>
         vs ← mapM (reify (S (S n)) h) elems; Some (VList vs)
     | None => None
     end).
  destruct (h !! x) as [[b|fields|elems]|]; try done.
  - destruct (mapM _ _); simpl; split; done.
  - split.
    + destruct (mapM (reify (S (S n)) h) elems) as [ws|] eqn:Hm; [|done].
      intros Heq. simpl in Heq. injection Heq as ->.
      apply mapM_Some in Hm. apply mapM_Some.
      apply Forall2_fmap_r in Hm.
      eapply Forall2_impl; [exact Hm|]. intros p s Hp. by apply reify_sample in Hp.
    + intros Hm. apply mapM_Some in Hm.
      assert (mapM (reify (S (S n)) h) elems = Some (sample_value <$> ss)) as ->;
        [|done].
      apply mapM_Some, Forall2_fmap_r.
      eapply Forall2_impl; [exact Hm|]. intros p s Hp. by apply reify_sample.
Qed.

(** ** deepcopy *)

Lemma copy_inv_start h0 : copy_inv h0 (∅, h0).
Proof.
  split; simpl; try (intros; simplify_map_eq; done).
  intros q o Hq Ho. apply lookup_lt_Some in Ho. lia.
Qed.

Lemma copy_inv_alloc h0 (m : gmap nat nat) (h : list obj) x o :
  copy_inv h0 (m, h) →
  Forall (le (length h0)) (pointers o) →
  (∀ k v, reify k h0 x = Some v → reify k (h ++ [o]) (length h) = Some v) →
  copy_inv h0 (<[x := length h]> m, h ++ [o]).
Proof.
  intros [Hpre Hrange Hval Hinj Hcl] Hptr Hnew. simpl in *.
  assert (length h0 ≤ length h) as Hlen by by apply prefix_length.
  split; simpl.
  - etrans; [exact Hpre|]. by apply prefix_app_r.
  - intros p q. rewrite length_app. simpl.
    destruct (decide (x = p)) as [->|Hne].
    + rewrite lookup_insert_eq. intros [= <-]. lia.
    + rewrite lookup_insert_ne by done. intros Hp.
      specialize (Hrange _ _ Hp). lia.
  - intros p q k v.
    destruct (decide (x = p)) as [->|Hne].
    + rewrite lookup_insert_eq. intros [= <-]. apply Hnew.
    + rewrite lookup_insert_ne by done. intros Hp Hv.
      apply (reify_prefix k h); [by exists [o]|]. by eapply Hval.
  - intros p p' q.
    destruct (decide (x = p)) as [Hxp|Hne], (decide (x = p')) as [Hxp'|Hne'];
      subst; rewrite ?lookup_insert_eq, ?lookup_insert_ne by done; try done.
    + intros [= <-] Hp'. specialize (Hrange _ _ Hp'). lia.
    + intros Hp [= <-]. specialize (Hrange _ _ Hp). lia.
    + apply Hinj.
  - intros q o' Hq Ho'.
    destruct (decide (q < length h)) as [Hlt|Hge].
    + rewrite lookup_app_l in Ho' by done. by eapply Hcl.
    + rewrite lookup_app_r in Ho' by lia.
      destruct (q - length h) as [|k] eqn:E; simpl in Ho'; [|by destruct k].
      by injection Ho' as <-.
Qed.

Lemma mapM_reify_copied h0 (m : gmap nat nat) h' k xs ys vs :
  (∀ x y v, m !! x = Some y → reify k h0 x = Some v → reify k h' y = Some v) →
  Forall2 (λ x y, m !! x = Some y) xs ys →
  mapM (reify k h0) xs = Some vs →
  mapM (reify k h') ys = Some vs.
Proof.
  intros Hval Hxy Hm. apply mapM_Some in Hm. apply mapM_Some.
  revert vs Hm. induction Hxy as [|x y xs ys Hx _ IH]; intros vs Hm.
  - inversion Hm. constructor.
  - inversion Hm as [|? v ? vs' Hv Hvs]; subst.
    constructor; [by eapply Hval | by apply IH].
Qed.

Lemma lookup_alloc (h : list obj) o : (h ++ [o]) !! length h = Some o.
Proof. by rewrite lookup_app_r, Nat.sub_diag. Qed.

(** A run of [copy_all] keeps the invariant when each call does. *)
Lemma copy_all_spec h0 copy :
  (∀ x st y st',
     copy_inv h0 st → copy x st = Ok (y, st') →
     copy_inv h0 st' ∧ st.1 ⊆ st'.1 ∧ st.2 `prefix_of` st'.2
     ∧ st'.1 !! x = Some y) →
  ∀ xs st ys st',
    copy_inv h0 st → copy_all copy xs st = Ok (ys, st') →
    copy_inv h0 st' ∧ st.1 ⊆ st'.1 ∧ st.2 `prefix_of` st'.2
    ∧ Forall2 (λ x y, st'.1 !! x = Some y) xs ys.
Proof.
  intros IH.
  induction xs as [|x xs IHxs]; intros st ys st' Hinv; simpl.
  - intros [= <- <-]. by split_and!.
  - destruct (copy x st) as [[y st1]|] eqn:Hx; [|done]. simpl.
    destruct (copy_all copy xs st1) as [[ys' st2]|] eqn:Hxs; [|done]. simpl.
    intros [= <- <-].
    destruct (IH _ _ _ _ Hinv Hx) as (Hinv1 & Hsub1 & Hpre1 & Hb1).
    destruct (IHxs _ _ _ Hinv1 Hxs) as (Hinv2 & Hsub2 & Hpre2 & Hb2).
    split_and!; [done|by etrans|by etrans|].
    constructor; [|done]. by eapply lookup_weaken.
Qed.

(** One call of [deepcopy_rec] and one run of [copy_all] keep the
    invariant, extend the memo and the store, and bind the original to
    the result. *)
Lemma deepcopy_rec_spec h0 n :
  ∀ x st y st',
    copy_inv h0 st → deepcopy_rec n x st = Ok (y, st') →
    copy_inv h0 st' ∧ st.1 ⊆ st'.1 ∧ st.2 `prefix_of` st'.2
    ∧ st'.1 !! x = Some y.
Proof.
  induction n as [|n IH]; intros x st y st' Hinv; [done|].
  pose proof (copy_all_spec h0 _ IH) as IHall.
  simpl. destruct (st.1 !! x) as [y0|] eqn:Hmemo.
  { intros [= <- <-]. by split_and!. }
  destruct (st.2 !! x) as [[a|fields|elems]|] eqn:Hx; [| | |done].
  - intros [= <- <-]. simpl.
    assert (copy_inv h0 (<[x:=length st.2]> st.1, st.2 ++ [ONd a])) as Hinv'.
    { destruct st as [m h]. apply copy_inv_alloc; [done|constructor|].
      intros k v Hv. destruct k as [|k]; [done|].
      simpl in Hv |- *. rewrite lookup_alloc.
      destruct (h0 !! x) as [o0|] eqn:H0; [|done].
      rewrite (prefix_lookup_Some _ _ _ _ H0 (inv_prefix _ _ Hinv)) in Hx.
      by injection Hx as ->. }
    split_and!; [done| |by apply prefix_app_r|by rewrite lookup_insert_eq].
    by apply insert_subseteq_r.
  - destruct (copy_all (deepcopy_rec n) fields.*2 st) as [[ys stc]|] eqn:Hc;
      [|done]. simpl.
    intros [= <- <-]. simpl.
    destruct (IHall _ _ _ _ Hinv Hc) as (Hinvc & Hsubc & Hprec & Hbc).
    assert (copy_inv h0 (<[x:=length stc.2]> stc.1,
                         stc.2 ++ [ODict (zip fields.*1 ys)])) as Hinv'.
    { destruct stc as [mc hc]. simpl in *.
      assert (length ys = length fields) as Hlen.
      { rewrite <- (Forall2_length _ _ _ Hbc). by rewrite length_fmap. }
      apply copy_inv_alloc; [done| |].
      - simpl. rewrite snd_zip by (rewrite length_fmap; lia).
        apply Forall_forall. intros yq Hyq.
        apply list_elem_of_lookup in Hyq as [i Hi].
        destruct (Forall2_lookup_r _ _ _ _ _ Hbc Hi) as (xq & _ & Hq).
        by apply (inv_range _ _ Hinvc) in Hq as [? _].
      - intros k v Hv. destruct k as [|k]; [done|].
        simpl in Hv |- *. rewrite lookup_alloc.
        destruct (h0 !! x) as [o0|] eqn:H0; [|done].
        rewrite (prefix_lookup_Some _ _ _ _ H0 (inv_prefix _ _ Hinv)) in Hx.
        injection Hx as ->.
        destruct (mapM (reify k h0) fields.*2) as [vs|] eqn:Hm; [|done].
        simpl in Hv. injection Hv as <-.
        rewrite snd_zip by (rewrite length_fmap; lia).
        rewrite fst_zip by (rewrite length_fmap; lia).
        erewrite mapM_reify_copied; [done| |exact Hbc|exact Hm].
        intros x' y' v' Hb Hv'.
        apply (reify_prefix k hc); [by eexists|].
        by eapply (inv_value _ _ Hinvc). }
    split_and!; [done| | |by rewrite lookup_insert_eq].
    + apply insert_subseteq_r; [done|]. done.
    + etrans; [exact Hprec|]. by apply prefix_app_r.
  - destruct (copy_all (deepcopy_rec n) elems st) as [[ys stc]|] eqn:Hc;
      [|done]. simpl.
    intros [= <- <-]. simpl.
    destruct (IHall _ _ _ _ Hinv Hc) as (Hinvc & Hsubc & Hprec & Hbc).
    assert (copy_inv h0 (<[x:=length stc.2]> stc.1, stc.2 ++ [OList ys]))
      as Hinv'.
    { destruct stc as [mc hc]. simpl in *.
      apply copy_inv_alloc; [done| |].
      - simpl. apply Forall_forall. intros yq Hyq.
        apply list_elem_of_lookup in Hyq as [i Hi].
        destruct (Forall2_lookup_r _ _ _ _ _ Hbc Hi) as (xq & _ & Hq).
        by apply (inv_range _ _ Hinvc) in Hq as [? _].
      - intros k v Hv. destruct k as [|k]; [done|].
        simpl in Hv |- *. rewrite lookup_alloc.
        destruct (h0 !! x) as [o0|] eqn:H0; [|done].
        rewrite (prefix_lookup_Some _ _ _ _ H0 (inv_prefix _ _ Hinv)) in Hx.
        injection Hx as ->.
        destruct (mapM (reify k h0) elems) as [vs|] eqn:Hm; [|done].
        simpl in Hv. injection Hv as <-.
        erewrite mapM_reify_copied; [done| |exact Hbc|exact Hm].
        intros x' y' v' Hb Hv'.
        apply (reify_prefix k hc); [by eexists|].
        by eapply (inv_value _ _ Hinvc). }
    split_and!; [done| | |by rewrite lookup_insert_eq].
    + apply insert_subseteq_r; [done|]. done.
    + etrans; [exact Hprec|]. by apply prefix_app_r.
Qed.

(** A structure that can be read to depth [n] is copied with [n]
    nested calls. *)
Lemma deepcopy_rec_total h0 n :
  ∀ x st v,
    copy_inv h0 st → reify n h0 x = Some v →
    ∃ y st', deepcopy_rec n x st = Ok (y, st').
Proof.
  induction n as [|n IH]; intros x st v Hinv Hv; [done|].
  assert (∀ xs st vs,
    copy_inv h0 st → mapM (reify n h0) xs = Some vs →
    ∃ ys st', copy_all (deepcopy_rec n) xs st = Ok (ys, st')) as IHall.
  { clear x st v Hinv Hv.
    induction xs as [|x xs IHxs]; intros st vs Hinv Hm; simpl; [by eauto|].
    apply mapM_Some in Hm. inversion Hm as [|? v ? vs' Hv Hvs]; subst.
    destruct (IH x st v Hinv Hv) as (y & st1 & Hx). rewrite Hx. simpl.
    destruct (deepcopy_rec_spec h0 n x st y st1 Hinv Hx) as (Hinv1 & _).
    apply mapM_Some in Hvs.
    destruct (IHxs st1 vs' Hinv1 Hvs) as (ys & st2 & ->). simpl. by eauto. }
  simpl. destruct (st.1 !! x) as [y0|]; [by eauto|].
  simpl in Hv. destruct (h0 !! x) as [o0|] eqn:H0; [|done].
  rewrite (prefix_lookup_Some _ _ _ _ H0 (inv_prefix _ _ Hinv)).
  destruct o0 as [a|fields|elems]; [by eauto| |].
  - destruct (mapM (reify n h0) fields.*2) as [vs|] eqn:Hm; [|done].
    destruct (IHall _ st _ Hinv Hm) as (ys & stc & ->). simpl. by eauto.
  - destruct (mapM (reify n h0) elems) as [vs|] eqn:Hm; [|done].
    destruct (IHall _ st _ Hinv Hm) as (ys & stc & ->). simpl. by eauto.
Qed.

(** [deepcopy] of a structure within the recursion limit: the result
    is a new object with the same value, the store is extended, and
    the new objects refer to new objects only. *)
Lemma deepcopy_value h0 x v :
  reify recursion_limit h0 x = Some v →
  ∃ y h', deepcopy x h0 = Ok (y, h')
    ∧ h0 `prefix_of` h' ∧ length h0 ≤ y
    ∧ reify recursion_limit h' y = Some v
    ∧ closed_from (length h0) h'.
Proof.
  unfold deepcopy. generalize recursion_limit. intros n Hv.
  destruct (deepcopy_rec_total h0 n x (∅, h0) v (copy_inv_start h0) Hv)
    as (y & st' & Hc).
  destruct (deepcopy_rec_spec h0 n x _ y st' (copy_inv_start h0) Hc)
    as (Hinv & _ & Hpre & Hb).
  exists y, st'.2. rewrite Hc. split_and!; [done|done| | |].
  - by apply (inv_range _ _ Hinv) in Hb as [? _].
  - by eapply (inv_value _ _ Hinv).
  - apply (inv_closed _ _ Hinv).
Qed.

Lemma deepcopy_sample h0 x s :
  read_sample h0 x = Some s →
  ∃ y h', deepcopy x h0 = Ok (y, h')
    ∧ h0 `prefix_of` h' ∧ length h0 ≤ y
    ∧ read_sample h' y = Some s
    ∧ closed_from (length h0) h'.
Proof.
  intros Hs. apply (reify_sample 998) in Hs.
  change (S (S 998)) with recursion_limit in Hs.
  destruct (deepcopy_value _ _ _ Hs) as (y & h' & Hc & Hpre & Hy & Hv & Hcl).
  exists y, h'. split_and!; try done.
  by apply (reify_sample 998).
Qed.

Lemma copied_NoDup (m : gmap nat nat) xs ys :
  (∀ p p' q, m !! p = Some q → m !! p' = Some q → p = p') →
  Forall2 (λ x y, m !! x = Some y) xs ys →
  NoDup xs → NoDup ys.
Proof.
  intros Hinj Hb. induction Hb as [|x y xs ys Hx Hxs IH]; intros Hnd.
  - constructor.
  - apply NoDup_cons in Hnd as [Hnin Hnd]. apply NoDup_cons. split; [|by apply IH].
    intros Hin. apply list_elem_of_lookup in Hin as [i Hi].
    destruct (Forall2_lookup_r _ _ _ _ _ Hxs Hi) as (x' & Hx' & Hb').
    assert (x = x') as -> by by eapply Hinj.
    apply Hnin. by eapply list_elem_of_lookup_2.
Qed.

(** The copy of a list of distinct objects is a list of distinct
    objects. *)
Lemma deepcopy_list_NoDup h0 x elems y h' :
  h0 !! x = Some (OList elems) → NoDup elems →
  deepcopy x h0 = Ok (y, h') →
  ∃ ys, h' !! y = Some (OList ys) ∧ NoDup ys.
Proof.
  unfold deepcopy. generalize recursion_limit. intros [|n] Hx Hnd; [done|].
  simpl. rewrite lookup_empty, Hx.
  destruct (copy_all (deepcopy_rec n) elems (∅, h0)) as [[ys stc]|] eqn:Hc;
    [|done].
  simpl. intros [= <- <-]. exists ys.
  split; [apply lookup_alloc|].
  destruct (copy_all_spec h0 _ (deepcopy_rec_spec h0 n) _ _ _ _
              (copy_inv_start h0) Hc) as (Hinv & _ & _ & Hb).
  eapply copied_NoDup; [apply (inv_inj _ _ Hinv)|exact Hb|done].
Qed.

Lemma deepcopy_batch h0 x elems ss :
  h0 !! x = Some (OList elems) → NoDup elems →
  read_batch h0 x = Some ss →
  ∃ y h' ys, deepcopy x h0 = Ok (y, h')
    ∧ h0 `prefix_of` h' ∧ length h0 ≤ y
    ∧ h' !! y = Some (OList ys) ∧ NoDup ys
    ∧ Forall2 (λ yi s, read_sample h' yi = Some s) ys ss
    ∧ closed_from (length h0) h'.
Proof.
  intros Hx Hnd Hs. apply (reify_batch 997) in Hs.
  change (S (S (S 997))) with recursion_limit in Hs.
  destruct (deepcopy_value _ _ _ Hs) as (y & h' & Hc & Hpre & Hy & Hv & Hcl).
  destruct (deepcopy_list_NoDup _ _ _ _ _ Hx Hnd Hc) as (ys & Hys & Hndys).
  exists y, h', ys. split_and!; try done.
  change recursion_limit with (S (S (S 997))) in Hv.
  apply reify_batch in Hv. unfold read_batch in Hv. rewrite Hys in Hv.
  by apply mapM_Some in Hv.
Qed.

(** ** Mappings in the store and mappings by value *)

Lemma read_sample_at h x s :
  read_sample h x = Some s
  ↔ ∃ fields, h !! x = Some (ODict fields) ∧ sample_at h fields s.
Proof.
  unfold read_sample, sample_at. split.
  - destruct (h !! x) as [[a|fields|elems]|]; try done.
    destruct (mapM (read_array h) fields.*2) as [vs|] eqn:Hm; [|done].
    simpl. intros [= <-]. exists fields. split; [done|].
    apply mapM_Some in Hm. clear x.
    revert vs Hm. induction fields as [|[k p] fields IH]; intros vs Hm.
    + inversion Hm. constructor.
    + inversion Hm as [|? v ? vs' Hv Hvs]; subst. simpl.
      constructor; [done|]. by apply IH.
  - intros (fields & -> & Hat).
    assert (mapM (read_array h) fields.*2 = Some s.*2) as ->.
    { apply mapM_Some. induction Hat as [|f kv fields s [_ Hv] _ IH];
        simpl; by constructor. }
    simpl. f_equal.
    induction Hat as [|[k p] [k' a] fields s [Hk _] _ IH]; [done|].
    csimpl in *. by rewrite Hk, IH.
Qed.

Lemma read_sample_is_dict h x s : read_sample h x = Some s → is_dict h x.
Proof. intros (fields & Hx & _)%read_sample_at. by exists fields. Qed.

Lemma sample_at_keys h fields s : sample_at h fields s → fields.*1 = s.*1.
Proof.
  induction 1 as [|f kv fields s [Hk _] _ IH]; [done|].
  csimpl. by rewrite Hk, IH.
Qed.

Lemma sample_at_get h fields s key :
  sample_at h fields s →
  match dict_get fields key with
  | Some p => ∃ a, read_array h p = Some a ∧ dict_get s key = Some a
  | None => dict_get s key = None
  end.
Proof.
  induction 1 as [|[k p] [k' a] fields s [Hk Hv] _ IH]; [done|].
  simpl in *. subst k'. destruct (bool_decide (k = key)); [by eauto|done].
Qed.

Lemma sample_at_set h fields s key p a :
  sample_at h fields s → read_array h p = Some a →
  sample_at h (dict_set fields key p) (dict_set s key a).
Proof.
  intros Hat Hp.
  induction Hat as [|[k q] [k' b] fields s [Hk Hv] Hrest IH]; simpl in *.
  - by constructor.
  - subst k'. destruct (bool_decide (k = key)); by constructor.
Qed.

Lemma updates_refl L h : updates L h h.
Proof. by split. Qed.

Lemma updates_trans L h1 h2 h3 :
  updates L h1 h2 → updates L h2 h3 → updates L h1 h3.
Proof.
  intros [Hl1 Hf1 Hc1] [Hl2 Hf2 Hc2]. split.
  - lia.
  - intros p Hp Hnin. rewrite Hf2 by (done || lia). by apply Hf1.
  - intros n0 HL Hcl. by apply Hc2, Hc1.
Qed.

Lemma updates_mono L L' h h' :
  L ⊆ L' → updates L h h' → updates L' h h'.
Proof.
  intros Hsub [Hl Hf Hc]. split; [done| |].
  - intros p Hp Hnin. apply Hf; [done|]. intros Hin. by apply Hnin, Hsub.
  - intros n0 HL. apply Hc. apply Forall_forall. intros p Hp.
    eapply Forall_forall in HL; [exact HL|]. by apply Hsub.
Qed.

Lemma read_array_frame L h h' p a :
  updates L h h' → Forall (is_dict h) L →
  read_array h p = Some a → read_array h' p = Some a.
Proof.
  unfold read_array. intros Hupd HL.
  destruct (h !! p) as [[b|?|?]|] eqn:Hp; try done.
  rewrite (upd_frame _ _ _ Hupd); [by rewrite Hp| |].
  - by eapply lookup_lt_Some.
  - intros Hin. eapply Forall_forall in HL; [|exact Hin].
    destruct HL as [fields Hf]. congruence.
Qed.

Lemma read_sample_frame L h h' x s :
  updates L h h' → Forall (is_dict h) L → x ∉ L →
  read_sample h x = Some s → read_sample h' x = Some s.
Proof.
  intros Hupd HL Hnin (fields & Hx & Hat)%read_sample_at.
  apply read_sample_at. exists fields. split.
  - rewrite (upd_frame _ _ _ Hupd); [done| |done]. by eapply lookup_lt_Some.
  - eapply Forall2_impl; [exact Hat|].
    intros f kv [Hk Hv]. split; [done|]. by eapply read_array_frame.
Qed.

Lemma updates_take L h h' n0 :
  updates L h h' → Forall (le n0) L → n0 ≤ length h →
  take n0 h' = take n0 h.
Proof.
  intros Hupd HL Hn. apply list_eq. intros i.
  destruct (decide (i < n0)) as [Hi|Hi].
  - rewrite !lookup_take_lt by done. apply (upd_frame _ _ _ Hupd); [lia|].
    intros Hin. eapply Forall_forall in HL; [|exact Hin]. lia.
  - by rewrite !lookup_take_ge by lia.
Qed.

Lemma store_get_sim h x s key :
  read_sample h x = Some s → store_get x h key = sample_get s key.
Proof.
  intros (fields & Hx & Hat)%read_sample_at.
  unfold store_get, sample_get. rewrite Hx. destruct key as [|k]; [done|].
  pose proof (sample_at_get h fields s k Hat) as Hget.
  destruct (dict_get fields k) as [p|].
  - destruct Hget as (a & Hp & ->). unfold read_array in Hp.
    by destruct (h !! p) as [[b|?|?]|]; simplify_eq.
  - by rewrite Hget.
Qed.

Lemma dict_set_pointers (P : nat → Prop) (fields : list (string * nat)) key p :
  Forall P fields.*2 → P p → Forall P (dict_set fields key p).*2.
Proof.
  intros Hf Hp. induction fields as [|[k q] fields IH]; csimpl in *.
  - by constructor.
  - apply Forall_cons in Hf as [Hq Hf].
    destruct (bool_decide (k = key)); csimpl; constructor; auto.
Qed.

Lemma store_set_sim h x s key a :
  read_sample h x = Some s →
  match sample_set s key a with
  | Ok s' => ∃ h', store_set x h key a = Ok h'
               ∧ read_sample h' x = Some s' ∧ updates [x] h h'
  | Raise e => store_set x h key a = Raise e
  end.
Proof.
  intros (fields & Hx & Hat)%read_sample_at.
  unfold store_set, sample_set. rewrite Hx. destruct key as [|k]; [done|].
  simpl. eexists. split; [done|].
  assert (x < length h) as Hlt by by eapply lookup_lt_Some.
  assert (∀ p, p < length h → p ≠ x →
    <[x:=ODict (dict_set fields k (length h))]> (h ++ [ONd a]) !! p = h !! p)
    as Hframe.
  { intros p Hp Hne. rewrite list_lookup_insert_ne by done.
    by rewrite lookup_app_l. }
  split.
  - apply read_sample_at. eexists. split.
    { apply list_lookup_insert_eq. rewrite length_app. lia. }
    apply sample_at_set.
    + eapply Forall2_impl; [exact Hat|]. intros f kv [Hk Hv]. split; [done|].
      unfold read_array in *.
      destruct (h !! f.2) as [o|] eqn:Hf; [|done].
      rewrite Hframe; [by rewrite Hf|by eapply lookup_lt_Some|].
      intros Heq. rewrite Heq, Hx in Hf. by simplify_eq.
    + unfold read_array. rewrite list_lookup_insert_ne by lia.
      by rewrite lookup_alloc.
  - split.
    + rewrite length_insert, length_app. lia.
    + intros p Hp Hnin. apply Hframe; [done|]. set_solver.
    + intros n0 HL Hcl q o Hq Ho. apply Forall_singleton in HL.
      destruct (decide (q = x)) as [->|Hne].
      * rewrite list_lookup_insert_eq in Ho by (rewrite length_app; lia).
        injection Ho as <-. simpl. apply dict_set_pointers; [|lia].
        by apply (Hcl x (ODict fields)).
      * rewrite list_lookup_insert_ne in Ho by done.
        destruct (decide (q < length h)) as [Hlt'|Hge].
        -- rewrite lookup_app_l in Ho by done. by eapply Hcl.
        -- rewrite lookup_app_r in Ho by lia.
           destruct (q - length h) as [|j]; simpl in Ho; [|by destruct j].
           injection Ho as <-. constructor.
Qed.

(** ** The executor in the store computes what it computes by value *)

Section simulation.
Context {S1 S2 : Type}.
Variable R : S1 → S2 → Prop.

Lemma foldM_sim {A} (f1 : S1 → A → result S1) (f2 : S2 → A → result S2) :
  (∀ s1 s2 a, R s1 s2 → rel_result R (f1 s1 a) (f2 s2 a)) →
  ∀ l s1 s2, R s1 s2 → rel_result R (foldM f1 s1 l) (foldM f2 s2 l).
Proof.
  intros Hf. induction l as [|a l IH]; intros s1 s2 HR; simpl.
  - by exists s1.
  - specialize (Hf s1 s2 a HR). unfold rel_result in Hf.
    destruct (f2 s2 a) as [s2'|e]; simpl.
    + destruct Hf as (s1' & -> & HR'). simpl. by apply IH.
    + by rewrite Hf.
Qed.

Variable get1 : S1 → atom → result (ndarray Q).
Variable set1 : S1 → atom → ndarray Q → result S1.
Variable get2 : S2 → atom → result (ndarray Q).
Variable set2 : S2 → atom → ndarray Q → result S2.
Hypothesis get_sim : ∀ s1 s2 key, R s1 s2 → get1 s1 key = get2 s2 key.
Hypothesis set_sim : ∀ s1 s2 key a,
  R s1 s2 → rel_result R (set1 s1 key a) (set2 s2 key a).

Lemma gather_sim s1 s2 o : R s1 s2 → gather get1 s1 o = gather get2 s2 o.
Proof.
  intros HR. unfold gather.
  assert (traverse (get1 s1) (mode_list (inputs o))
          = traverse (get2 s2) (mode_list (inputs o))) as ->; [|done].
  induction (mode_list (inputs o)) as [|k l IH]; [done|].
  simpl. by rewrite (get_sim _ _ _ HR), IH.
Qed.

Lemma write_sim s1 s2 o out :
  R s1 s2 → rel_result R (write set1 s1 o out) (write set2 s2 o out).
Proof.
  intros HR. unfold write. destruct out as [|a|l]; simpl; [done| |].
  - apply foldM_sim; [|done]. intros; by apply set_sim.
  - apply foldM_sim; [|done]. intros; by apply set_sim.
Qed.

Lemma run_op_sim st s1 s2 o :
  R s1 s2 → rel_result R (run_op get1 set1 st s1 o) (run_op get2 set2 st s2 o).
Proof.
  intros HR. unfold run_op. rewrite (gather_sim _ _ _ HR).
  destruct (gather get2 s2 o) as [d|e]; simpl; [|done].
  destruct (forward o d st) as [out|e]; simpl; [|done].
  destruct (truthy (outputs o)); [by apply write_sim|].
  by exists s1.
Qed.

Lemma forward_numpyop_on_sim l m s1 s2 :
  R s1 s2 →
  rel_result R (forward_numpyop_on get1 set1 l m s1)
             (forward_numpyop_on get2 set2 l m s2).
Proof.
  intros HR. unfold forward_numpyop_on.
  apply foldM_sim; [|done]. intros; by apply run_op_sim.
Qed.
End simulation.

Lemma forward_numpyop_sim l m h x s :
  read_sample h x = Some s →
  match forward_numpyop_pure l m s with
  | Ok s' => ∃ h', forward_numpyop l x m h = Ok h'
               ∧ read_sample h' x = Some s' ∧ updates [x] h h'
  | Raise e => forward_numpyop l x m h = Raise e
  end.
Proof.
  intros Hs.
  pose proof (forward_numpyop_on_sim
    (λ h' s', read_sample h' x = Some s' ∧ updates [x] h h')
    (store_get x) (store_set x) sample_get sample_set) as Hsim.
  unfold rel_result in Hsim.
  specialize (Hsim (λ h1 s1 key HR, store_get_sim h1 x s1 key (proj1 HR))).
  unfold forward_numpyop, forward_numpyop_pure.
  specialize (λ H, Hsim H l m h s (conj Hs (updates_refl _ _))).
  destruct (forward_numpyop_on sample_get sample_set l m s) as [s'|e].
  - destruct Hsim as (h' & Hrun & Hs' & Hupd); [|by eauto].
    intros h1 s1 key a [Hs1 Hupd1].
    pose proof (store_set_sim h1 x s1 key a Hs1) as Hset.
    destruct (sample_set s1 key a) as [s1'|e]; [|done].
    destruct Hset as (h1' & -> & Hs1' & Hupd1').
    exists h1'. split_and!; [done|done|]. by eapply updates_trans.
  - apply Hsim.
    intros h1 s1 key a [Hs1 Hupd1].
    pose proof (store_set_sim h1 x s1 key a Hs1) as Hset.
    destruct (sample_set s1 key a) as [s1'|e']; [|done].
    destruct Hset as (h1' & -> & Hs1' & Hupd1').
    exists h1'. split_and!; [done|done|]. by eapply updates_trans.
Qed.

(** ** Batches in the store and batches by value *)

Lemma batch_at_is_dict h elems ss :
  batch_at h elems ss → Forall (is_dict h) elems.
Proof.
  induction 1 as [|x s elems ss Hx _ IH]; constructor; [|done].
  by eapply read_sample_is_dict.
Qed.

Lemma batch_at_frame L h h' elems ss :
  updates L h h' → Forall (is_dict h) L → (∀ x, x ∈ elems → x ∉ L) →
  batch_at h elems ss → batch_at h' elems ss.
Proof.
  intros Hupd HL Hdisj Hat.
  induction Hat as [|x s elems ss Hx _ IH]; constructor.
  - eapply read_sample_frame; [done|done| |done]. apply Hdisj. set_solver.
  - apply IH. intros x' Hx'. apply Hdisj. set_solver.
Qed.

(** A loop that mutates the mappings of a batch one after the other
    computes the map of what it does to one mapping, provided the
    mappings are distinct objects. *)
Lemma items_sim (fh : list obj → nat → result (list obj))
    (fp : list (string * ndarray Q) → result (list (string * ndarray Q))) :
  (∀ h x s, read_sample h x = Some s →
     match fp s with
     | Ok s' => ∃ h', fh h x = Ok h' ∧ read_sample h' x = Some s'
                  ∧ updates [x] h h'
     | Raise e => fh h x = Raise e
     end) →
  ∀ elems ss h, NoDup elems → batch_at h elems ss →
    match traverse fp ss with
    | Ok ss' => ∃ h', foldM fh h elems = Ok h' ∧ batch_at h' elems ss'
                  ∧ updates elems h h'
    | Raise e => foldM fh h elems = Raise e
    end.
Proof.
  intros Hf. induction elems as [|x elems IH]; intros ss h Hnd Hat.
  - inversion Hat; subst. simpl. exists h. split_and!; [done|constructor|].
    apply updates_refl.
  - inversion Hat as [|? s ? ss' Hx Hrest]; subst.
    apply NoDup_cons in Hnd as [Hnin Hnd]. simpl.
    specialize (Hf h x s Hx).
    destruct (fp s) as [s'|e]; simpl; [|by rewrite Hf].
    destruct Hf as (h1 & -> & Hx1 & Hupd1). simpl.
    assert (batch_at h1 elems ss') as Hat1.
    { eapply batch_at_frame; [exact Hupd1| | |done].
      - constructor; [by eapply read_sample_is_dict|constructor].
      - intros x' Hx' Heq%list_elem_of_singleton. by subst. }
    specialize (IH ss' h1 Hnd Hat1).
    destruct (traverse fp ss') as [ss''|e]; simpl; [|done].
    destruct IH as (h' & -> & Hat' & Hupd'). exists h'. split_and!; [done| |].
    + constructor; [|done].
      eapply read_sample_frame; [exact Hupd'| |done|done].
      by eapply batch_at_is_dict.
    + eapply updates_trans.
      * eapply updates_mono; [|exact Hupd1].
        intros y Hy. apply list_elem_of_singleton in Hy. subst. by left.
      * eapply updates_mono; [|exact Hupd']. intros y Hy. by right.
Qed.

Lemma traverse_get_sim h elems ss key :
  batch_at h elems ss →
  traverse (λ item, store_get item h key) elems
  = traverse (λ s, sample_get s key) ss.
Proof.
  induction 1 as [|x s elems ss Hx _ IH]; [done|].
  simpl. by rewrite (store_get_sim _ _ _ _ Hx), IH.
Qed.

Lemma pad_key_sim fill key h elems ss :
  NoDup elems → batch_at h elems ss →
  match pad_key_pure fill ss key with
  | Ok ss' => ∃ h', pad_key elems fill h key = Ok h' ∧ batch_at h' elems ss'
                ∧ updates elems h h'
  | Raise e => pad_key elems fill h key = Raise e
  end.
Proof.
  intros Hnd Hat. unfold pad_key, pad_key_pure.
  rewrite (traverse_get_sim _ _ _ _ Hat).
  destruct (traverse (λ s, sample_get s (PyStr key)) ss) as [arrs|e];
    simpl; [|done].
  apply (items_sim
    (λ h item, a ← store_get item h (PyStr key);
               store_set item h (PyStr key)
                 (pad_data a (foldr max_shape [] (map shape arrs)) fill))
    (λ s, a ← sample_get s (PyStr key);
          sample_set s (PyStr key)
            (pad_data a (foldr max_shape [] (map shape arrs)) fill)));
    [|done|done].
  intros h1 x s Hx. rewrite (store_get_sim _ _ _ _ Hx).
  destruct (sample_get s (PyStr key)) as [a|e]; simpl; [|done].
  by apply (store_set_sim h1 x s (PyStr key)).
Qed.

Lemma pad_batch_sim fill h b elems ss :
  h !! b = Some (OList elems) → NoDup elems → batch_at h elems ss →
  match pad_batch_pure fill ss with
  | Ok ss' => ∃ h', pad_batch b fill h = Ok h' ∧ batch_at h' elems ss'
                ∧ updates elems h h'
  | Raise e => pad_batch b fill h = Raise e
  end.
Proof.
  intros Hb Hnd Hat. unfold pad_batch, pad_batch_pure, store_elems.
  rewrite Hb. simpl.
  destruct Hat as [|x s elems ss Hx Hrest]; [done|]. simpl.
  pose proof Hx as (fields & Hxf & Hxat)%read_sample_at.
  unfold store_keys. rewrite Hxf. simpl.
  rewrite (sample_at_keys _ _ _ Hxat).
  pose proof (foldM_sim
    (λ h' ss', batch_at h' (x :: elems) ss' ∧ updates (x :: elems) h h')
    (pad_key (x :: elems) fill) (pad_key_pure fill)) as Hsim.
  unfold rel_result in Hsim.
  assert (batch_at h (x :: elems) (s :: ss)) as Hat0 by by constructor.
  assert (∀ h1 ss1 key,
    batch_at h1 (x :: elems) ss1 ∧ updates (x :: elems) h h1 →
    match pad_key_pure fill ss1 key with
    | Ok ss2 => ∃ h2, pad_key (x :: elems) fill h1 key = Ok h2
                  ∧ batch_at h2 (x :: elems) ss2
                  ∧ updates (x :: elems) h h2
    | Raise e => pad_key (x :: elems) fill h1 key = Raise e
    end) as Hstep.
  { intros h1 ss1 key [Hat1 Hupd1].
    pose proof (pad_key_sim fill key h1 (x :: elems) ss1 Hnd Hat1) as Hk.
    destruct (pad_key_pure fill ss1 key) as [ss2|e]; [|done].
    destruct Hk as (h2 & -> & Hat2 & Hupd2).
    exists h2. split_and!; [done|done|]. by eapply updates_trans. }
  specialize (Hsim Hstep s.*1 h (s :: ss) (conj Hat0 (updates_refl _ _))).
  destruct (foldM (pad_key_pure fill) (s :: ss) s.*1) as [ss'|e]; [|done].
  destruct Hsim as (h' & -> & Hat' & Hupd'). by exists h'.
Qed.

(** ** Collation *)

Lemma traverse_ext {A B} (f g : A → result B) l :
  (∀ x, f x = g x) → traverse f l = traverse g l.
Proof.
  intros Hfg. induction l as [|x l IH]; [done|].
  simpl. by rewrite Hfg, IH.
Qed.

Lemma alloc_fields_spec cols :
  ∀ h fields h',
    alloc_fields cols h = (fields, h') →
    h `prefix_of` h'
    ∧ sample_at h' fields cols
    ∧ Forall (le (length h)) fields.*2
    ∧ (∀ q o, length h ≤ q → h' !! q = Some o → pointers o = []).
Proof.
  induction cols as [|[key a] cols IH]; intros h fields h'; simpl.
  - intros [= <- <-]. split_and!; [done|constructor|constructor|].
    intros q o Hq Ho. apply lookup_lt_Some in Ho. lia.
  - destruct (alloc_fields cols (h ++ [ONd a])) as [fields' h1] eqn:Hrec.
    intros [= <- <-].
    destruct (IH _ _ _ Hrec) as (Hpre & Hat & Hge & Hnew).
    rewrite length_app in Hge, Hnew. simpl in Hge, Hnew.
    split_and!.
    + etrans; [|exact Hpre]. by apply prefix_app_r.
    + constructor; [|done]. split; [done|]. simpl.
      eapply read_array_prefix; [exact Hpre|].
      unfold read_array. by rewrite lookup_alloc.
    + csimpl. constructor; [done|].
      eapply Forall_impl; [exact Hge|]. simpl. intros; lia.
    + intros q o Hq Ho.
      destruct (decide (q = length h)) as [->|Hne].
      * pose proof (prefix_lookup_Some _ _ _ _ (lookup_alloc h (ONd a)) Hpre).
        by simplify_eq.
      * apply (Hnew q o); [lia|done].
Qed.

Lemma collate_sim h b elems ss :
  h !! b = Some (OList elems) → batch_at h elems ss →
  match collate_spec ss with
  | Ok r => ∃ y h', collate b h = Ok (y, h')
              ∧ read_sample h' y = Some r
              ∧ h `prefix_of` h' ∧ length h ≤ y
              ∧ (∀ n0, n0 ≤ length h → closed_from n0 h → closed_from n0 h')
  | Raise e => collate b h = Raise e
  end.
Proof.
  intros Hb Hat. unfold collate, collate_spec, store_elems. rewrite Hb.
  destruct Hat as [|x s elems ss Hx Hrest]; [done|].
  pose proof Hx as (fields0 & Hxf & Hxat)%read_sample_at.
  cbn -[traverse sample_get column alloc_fields alloc store_keys].
  unfold store_keys. rewrite Hxf.
  cbn -[traverse sample_get column alloc_fields alloc].
  rewrite (sample_at_keys _ _ _ Hxat).
  assert (batch_at h (x :: elems) (s :: ss)) as Hat0 by by constructor.
  assert (traverse (column (x :: elems) h) s.*1
          = traverse (stack_key (s :: ss)) s.*1) as ->.
  { apply traverse_ext. intros key. unfold column, stack_key.
    by rewrite (traverse_get_sim _ _ _ _ Hat0). }
  match goal with |- match ?t with _ => _ end => destruct t as [cols|e] end;
    cbn -[alloc_fields alloc]; [|done].
  destruct (alloc_fields cols h) as [fields h1] eqn:Hal.
  destruct (alloc_fields_spec _ _ _ _ Hal) as (Hpre & Hcols & Hge & Hnew).
  exists (length h1), (h1 ++ [ODict fields]).
  assert (length h ≤ length h1) as Hlen by by apply prefix_length.
  split_and!; [done| | |done|].
  - apply read_sample_at. exists fields. split; [apply lookup_alloc|].
    eapply Forall2_impl; [exact Hcols|]. intros f kv [Hk Hv]. split; [done|].
    eapply read_array_prefix; [|exact Hv]. by apply prefix_app_r.
  - etrans; [exact Hpre|]. by apply prefix_app_r.
  - intros n0 Hn0 Hcl q o Hq Ho.
    destruct (decide (q < length h)) as [Hlt|Hge'].
    + eapply Hcl; [done|].
      destruct (lookup_lt_is_Some_2 h q Hlt) as [o' Ho'].
      pose proof (prefix_lookup_Some _ _ _ _ Ho'
                    (transitivity Hpre (prefix_app_r h1 h1 [ODict fields]
                                          (reflexivity _)))) as Ho''.
      by simplify_eq.
    + destruct (decide (q < length h1)) as [Hlt1|Hge1].
      * rewrite lookup_app_l in Ho by done.
        rewrite (Hnew q o); [constructor|lia|done].
      * rewrite lookup_app_r in Ho by lia.
        destruct (q - length h1) as [|j]; simpl in Ho; [|by destruct j].
        injection Ho as <-. simpl.
        eapply Forall_impl; [exact Hge|]. simpl. intros; lia.
Qed.

(** ** OpDataset.__getitem__ *)

Lemma bind_Ok {A B} (a : A) (k : A → result B) : (Ok a ≫= k) = k a.
Proof. reflexivity. Qed.

Lemma bind_Raise {A B} (e : exn) (k : A → result B) : (Raise e ≫= k) = Raise e.
Proof. reflexivity. Qed.

Ltac bind_simpl := rewrite ?bind_Ok, ?bind_Raise.

Lemma reach_closed n0 h y p :
  closed_from n0 h → n0 ≤ y → reach h y p → n0 ≤ p.
Proof.
  intros Hcl Hy. induction 1 as [|p o q _ IH Hp Hq]; [done|].
  specialize (Hcl p o IH Hp). by eapply Forall_forall in Hcl.
Qed.

Lemma take_length_prefix (h h' : list obj) : h `prefix_of` h' → take (length h) h' = h.
Proof. intros [k ->]. by rewrite take_app_length. Qed.

Lemma getitem_sample_sim self i h0 x s :
  is_batch (self_dataset self) = false →
  stored (self_dataset self) !! i = Some x →
  read_sample h0 x = Some s →
  match getitem_sample_pure self s with
  | Ok r => ∃ y h', OpDataset_getitem self i h0 = Ok (y, h')
              ∧ read_sample h' y = Some r ∧ isolated h0 h' y
  | Raise e => OpDataset_getitem self i h0 = Raise e
  end.
Proof.
  intros Hb Hi Hs. unfold OpDataset_getitem, Dataset_getitem, getitem_sample_pure.
  rewrite Hi, Hb.
  destruct (deepcopy_sample _ _ _ Hs) as (y & h1 & Hc & Hpre & Hy & Hs1 & Hcl).
  rewrite bind_Ok, Hc, bind_Ok.
  pose proof (forward_numpyop_sim (self_ops self) (self_mode self) h1 y s Hs1)
    as Hsim.
  destruct (forward_numpyop_pure (self_ops self) (self_mode self) s) as [r|e].
  - destruct Hsim as (h' & -> & Hr & Hupd). simpl.
    exists y, h'. split_and!; [done|done|].
    assert (length h0 ≤ length h1) as Hlen by by apply prefix_length.
    assert (Forall (le (length h0)) [y]) as HL by by constructor.
    split_and!.
    + rewrite (updates_take _ _ _ _ Hupd HL Hlen). by apply take_length_prefix.
    + pose proof (upd_length _ _ _ Hupd). lia.
    + intros p. apply reach_closed; [|done].
      by apply (upd_closed _ _ _ Hupd).
  - by rewrite Hsim.
Qed.

Lemma pad_opt_sim (pv : option Q) h b elems ss :
  h !! b = Some (OList elems) → NoDup elems → batch_at h elems ss →
  match (match pv with
         | Some fill => pad_batch_pure fill ss
         | None => Ok ss
         end) with
  | Ok ss' => ∃ h', match pv with
                    | Some fill => pad_batch b fill h
                    | None => Ok h
                    end = Ok h'
                ∧ batch_at h' elems ss' ∧ updates elems h h'
  | Raise e => match pv with
               | Some fill => pad_batch b fill h
               | None => Ok h
               end = Raise e
  end.
Proof.
  intros Hb Hnd Hat. destruct pv as [fill|]; [by apply pad_batch_sim|].
  exists h. split_and!; [done|done|apply updates_refl].
Qed.

Lemma getitem_batch_sim self i h0 x elems ss :
  is_batch (self_dataset self) = true →
  stored (self_dataset self) !! i = Some x →
  h0 !! x = Some (OList elems) → NoDup elems → batch_at h0 elems ss →
  match getitem_batch_pure self ss with
  | Ok r => ∃ y h', OpDataset_getitem self i h0 = Ok (y, h')
              ∧ read_sample h' y = Some r ∧ isolated h0 h' y
  | Raise e => OpDataset_getitem self i h0 = Raise e
  end.
Proof.
  intros Hb Hi Hx Hnd Hat.
  unfold OpDataset_getitem, Dataset_getitem, getitem_batch_pure.
  rewrite Hi, Hb.
  assert (read_batch h0 x = Some ss) as Hrb.
  { unfold read_batch. rewrite Hx. by apply mapM_Some. }
  destruct (deepcopy_batch _ _ _ _ Hx Hnd Hrb)
    as (y & h1 & ys & Hc & Hpre & Hy & Hys & Hndys & Hat1 & Hcl).
  rewrite bind_Ok, Hc, bind_Ok. unfold store_elems. rewrite !Hys.
  bind_simpl.
  assert (length h0 ≤ length h1) as Hlen by by apply prefix_length.
  assert (Forall (le (length h0)) ys) as HL.
  { specialize (Hcl y (OList ys) Hy Hys). done. }
  assert (y ∉ ys) as Hynin.
  { intros Hin. apply batch_at_is_dict in Hat1.
    eapply Forall_forall in Hat1; [|exact Hin].
    destruct Hat1 as [fields Hf]. congruence. }
  pose proof (items_sim
    (λ h item, forward_numpyop (self_ops self) item (self_mode self) h)
    (forward_numpyop_pure (self_ops self) (self_mode self))
    (λ h x s, forward_numpyop_sim _ _ h x s) ys ss h1 Hndys Hat1) as Hsim.
  destruct (traverse (forward_numpyop_pure (self_ops self) (self_mode self)) ss)
    as [ss1|e]; bind_simpl; [|by rewrite Hsim].
  destruct Hsim as (h2 & -> & Hat2 & Hupd2). bind_simpl.
  assert (h2 !! y = Some (OList ys)) as Hys2.
  { rewrite (upd_frame _ _ _ Hupd2); [done| |done]. by eapply lookup_lt_Some. }
  pose proof (pad_opt_sim (pad_value (self_dataset self)) h2 y ys ss1
                Hys2 Hndys Hat2) as Hpad.
  destruct (match pad_value (self_dataset self) with
            | Some fill => pad_batch_pure fill ss1
            | None => Ok ss1
            end) as [ss2|e]; bind_simpl; [|by rewrite Hpad].
  destruct Hpad as (h3 & -> & Hat3 & Hupd3). bind_simpl.
  assert (h3 !! y = Some (OList ys)) as Hys3.
  { rewrite (upd_frame _ _ _ Hupd3); [done| |done]. by eapply lookup_lt_Some. }
  pose proof (collate_sim h3 y ys ss2 Hys3 Hat3) as Hcol.
  destruct (collate_spec ss2) as [r|e]; [|done].
  destruct Hcol as (y' & h4 & -> & Hr & Hpre4 & Hy' & Hcl4).
  exists y', h4. split_and!; [done|done|].
  pose proof (upd_length _ _ _ Hupd2). pose proof (upd_length _ _ _ Hupd3).
  pose proof (prefix_length _ _ Hpre4).
  assert (take (length h0) h3 = h0) as Htake.
  { rewrite (updates_take _ _ _ _ Hupd3 HL) by lia.
    rewrite (updates_take _ _ _ _ Hupd2 HL) by lia. by apply take_length_prefix. }
  split_and!.
  - destruct Hpre4 as [k ->]. rewrite take_app_le by lia. done.
  - lia.
  - intros p. apply reach_closed; [|lia].
    apply Hcl4; [lia|].
    by apply (upd_closed _ _ _ Hupd3), (upd_closed _ _ _ Hupd2).
Qed.

(** *** Isolation *)

Lemma mutated_take n0 (owned : nat → Prop) h h' :
  (∀ p, owned p → n0 ≤ p) → n0 ≤ length h →
  mutated owned h h' → take n0 h' = take n0 h.
Proof.
  intros Hown Hn Hmut. induction Hmut as [h|h h' p o Hp Hlt _ IH|h h' o _ IH].
  - done.
  - rewrite IH by by rewrite length_insert.
    apply take_insert_ge. by apply Hown.
  - rewrite IH by (rewrite length_app; lia). by apply take_app_le.
Qed.

Lemma take_prefix_of n0 (h0 h : list obj) :
  take n0 h = h0 → h0 `prefix_of` h.
Proof. intros <-. apply prefix_take. Qed.

(** The second call: in any store that extends [h0], the wrapper
    computes the same value from the same stored item. *)
Lemma getitem_again self i h0 h x y1 h1 r :
  stored (self_dataset self) !! i = Some x →
  stored_ok self h0 x →
  h0 `prefix_of` h →
  OpDataset_getitem self i h0 = Ok (y1, h1) → read_sample h1 y1 = Some r →
  ∃ y2 h2, OpDataset_getitem self i h = Ok (y2, h2)
    ∧ read_sample h2 y2 = Some r.
Proof.
  unfold stored_ok. intros Hi Hok Hpre Hget Hr.
  destruct (is_batch (self_dataset self)) eqn:Hb.
  - destruct Hok as (elems & ss & Hx & Hnd & Hat).
    assert (h !! x = Some (OList elems)) as Hx'
      by by eapply prefix_lookup_Some.
    assert (batch_at h elems ss) as Hat'.
    { eapply Forall2_impl; [exact Hat|].
      intros; by eapply read_sample_prefix. }
    pose proof (getitem_batch_sim self i h0 x elems ss Hb Hi Hx Hnd Hat) as H1.
    pose proof (getitem_batch_sim self i h x elems ss Hb Hi Hx' Hnd Hat') as H2.
    destruct (getitem_batch_pure self ss) as [r'|e]; [|congruence].
    destruct H1 as (y & h' & Hget1 & Hr1 & _).
    destruct H2 as (y2 & h2 & Hget2 & Hr2 & _).
    exists y2, h2. split; [done|]. congruence.
  - destruct Hok as (s & Hs).
    assert (read_sample h x = Some s) as Hs' by by eapply read_sample_prefix.
    pose proof (getitem_sample_sim self i h0 x s Hb Hi Hs) as H1.
    pose proof (getitem_sample_sim self i h x s Hb Hi Hs') as H2.
    destruct (getitem_sample_pure self s) as [r'|e]; [|congruence].
    destruct H1 as (y & h' & Hget1 & Hr1 & _).
    destruct H2 as (y2 & h2 & Hget2 & Hr2 & _).
    exists y2, h2. split; [done|]. congruence.
Qed.

Lemma getitem_isolated self i h0 x y1 h1 :
  stored (self_dataset self) !! i = Some x →
  stored_ok self h0 x →
  OpDataset_getitem self i h0 = Ok (y1, h1) →
  isolated h0 h1 y1 ∧ ∃ r, read_sample h1 y1 = Some r.
Proof.
  unfold stored_ok. intros Hi Hok Hget.
  destruct (is_batch (self_dataset self)) eqn:Hb.
  - destruct Hok as (elems & ss & Hx & Hnd & Hat).
    pose proof (getitem_batch_sim self i h0 x elems ss Hb Hi Hx Hnd Hat) as H1.
    destruct (getitem_batch_pure self ss) as [r|e]; [|congruence].
    destruct H1 as (y & h' & Hget1 & Hr1 & Hiso).
    rewrite Hget in Hget1. injection Hget1 as <- <-. eauto.
  - destruct Hok as (s & Hs).
    pose proof (getitem_sample_sim self i h0 x s Hb Hi Hs) as H1.
    destruct (getitem_sample_pure self s) as [r|e]; [|congruence].
    destruct H1 as (y & h' & Hget1 & Hr1 & Hiso).
    rewrite Hget in Hget1. injection Hget1 as <- <-. eauto.
Qed.

(** C6: the call works on a deep copy.  After [__getitem__(i)]
    returned the mapping [y1], the objects of the store it was called
    in are as they were and none of them is reached from [y1]; and
    whatever the client then does to the objects reached from [y1],
    the stored item keeps its value and the next [__getitem__(i)]
    returns a mapping with the value the first call returned. *)
Theorem getitem_deepcopy_isolation
    (self : OpDataset) (i x y1 : nat) (h0 h1 h1' : list obj) :
  stored (self_dataset self) !! i = Some x →
  stored_ok self h0 x →
  OpDataset_getitem self i h0 = Ok (y1, h1) →
  mutated (owned_by h1 y1) h1 h1' →
  take (length h0) h1 = h0
  ∧ (∀ p, reach h1 y1 p → length h0 ≤ p)
  ∧ take (length h0) h1' = h0
  ∧ (∀ n v, reify n h0 x = Some v → reify n h1' x = Some v)
  ∧ ∃ r y2 h2, read_sample h1 y1 = Some r
      ∧ OpDataset_getitem self i h1' = Ok (y2, h2)
      ∧ read_sample h2 y2 = Some r.
Proof.
  intros Hi Hok Hget Hmut.
  destruct (getitem_isolated _ _ _ _ _ _ Hi Hok Hget)
    as ((Htake & Hlen & Hreach) & r & Hr).
  assert (take (length h0) h1' = h0) as Htake'.
  { rewrite <- Htake at 2. apply (mutated_take _ (owned_by h1 y1)); [|done|done].
    intros p [Hp|Hp]; [by apply Hreach|lia]. }
  assert (h0 `prefix_of` h1') as Hpre by by eapply take_prefix_of.
  split_and!; [done|done|done| |].
  - intros n v. by apply reify_prefix.
  - destruct (getitem_again self i h0 h1' x y1 h1 r Hi Hok Hpre Hget Hr)
      as (y2 & h2 & Hget2 & Hr2).
    by exists r, y2, h2.
Qed.

(** The executor run on the stored mapping itself changes it: the
    store is shared, which is what the copy protects against. *)
Example forward_numpyop_in_place :
  ∃ h, forward_numpyop
         [Binarize 0.5%Q (Single (PyStr "x")) (Single (PyStr "y"))
            (Single PyNone)] 1 (PyStr "train") scenario_store = Ok h
    ∧ h !! 1 = Some (ODict [("x", 0); ("y", 2)])
    ∧ scenario_store !! 1 = Some (ODict [("x", 0)]).
Proof. eexists. split_and!; reflexivity. Qed.

Lemma getitem_deepcopy_isolation_witness :
  take (length scenario_store) scenario_after = scenario_store
  ∧ (∀ p, reach scenario_after 3 p → length scenario_store ≤ p)
  ∧ take (length scenario_store) scenario_mutated = scenario_store
  ∧ (∀ n v, reify n scenario_store 1 = Some v →
            reify n scenario_mutated 1 = Some v)
  ∧ ∃ r y2 h2, read_sample scenario_after 3 = Some r
      ∧ OpDataset_getitem scenario_wrapper 0 scenario_mutated = Ok (y2, h2)
      ∧ read_sample h2 y2 = Some r.
Proof.
  apply (getitem_deepcopy_isolation scenario_wrapper 0 1 3
           scenario_store scenario_after scenario_mutated).
  - reflexivity.
  - exists [("x", Axis [Scalar 0.2%Q; Scalar 0.7%Q])]. reflexivity.
  - vm_compute. reflexivity.
  - apply (mutated_write _ _ _ 2 (ONd (Axis [Scalar 9%Q; Scalar 9%Q]))).
    + left. apply (reach_next _ _ 3 (ODict [("x", 2); ("y", 4)]) 2).
      * apply reach_here.
      * reflexivity.
      * simpl. left.
    + simpl. lia.
    + apply mutated_refl.
Defined.

(** *** The collated batch *)

Lemma traverse_Ok {A B} (f : A → result B) l l' :
  traverse f l = Ok l' ↔ Forall2 (λ x y, f x = Ok y) l l'.
Proof.
  revert l'. induction l as [|x l IH]; intros l'; simpl.
  - split; [intros [= <-]; constructor | by inversion 1].
  - destruct (f x) as [y|e] eqn:Hx; simpl.
    + destruct (traverse f l) as [ys|e] eqn:Hl; simpl.
      * split.
        -- intros [= <-]. constructor; [done|]. by apply IH.
        -- inversion 1 as [|? y' ? ys' Hy Hys]; subst.
           apply IH in Hys. congruence.
      * split; [done|]. inversion 1 as [|? y' ? ys' Hy Hys]; subst.
        by apply IH in Hys.
    + split; [done|]. inversion 1; congruence.
Qed.

Lemma dict_set_keys {V} (s : list (string * V)) key v w :
  dict_get s key = Some v → (dict_set s key w).*1 = s.*1.
Proof.
  induction s as [|[k u] s IH]; [done|]. simpl.
  destruct (bool_decide (k = key)); csimpl; [done|].
  intros Hg. by rewrite IH.
Qed.

(** Padding keeps the keys of every sample. *)
Lemma pad_key_pure_keys fill ss key ss' :
  pad_key_pure fill ss key = Ok ss' →
  Forall2 (λ s s', s'.*1 = s.*1) ss ss'.
Proof.
  unfold pad_key_pure.
  destruct (traverse (λ s, sample_get s (PyStr key)) ss) as [arrs|e];
    simpl; [|done].
  intros Ht%traverse_Ok. eapply Forall2_impl; [exact Ht|].
  intros s s'. simpl. destruct (dict_get s key) as [a|] eqn:Hg; simpl; [|done].
  intros [= <-]. by eapply dict_set_keys.
Qed.

Lemma pad_keys_pure_keys fill keys :
  ∀ ss ss', foldM (pad_key_pure fill) ss keys = Ok ss' →
    Forall2 (λ s s', s'.*1 = s.*1) ss ss'.
Proof.
  induction keys as [|key keys IH]; intros ss ss'; simpl.
  - intros [= <-]. by apply Forall_Forall2_diag, Forall_forall.
  - destruct (pad_key_pure fill ss key) as [ss1|e] eqn:Hk; simpl; [|done].
    intros Hrest. apply pad_key_pure_keys in Hk. apply IH in Hrest.
    clear IH. revert ss' Hrest.
    induction Hk as [|s s1 ss ss1 Hs _ IHk]; intros ss' Hrest.
    + done.
    + inversion Hrest as [|? s' ? ss'' Hs' Hss']; subst.
      constructor; [congruence|by apply IHk].
Qed.

Lemma pad_opt_pure_keys (pv : option Q) ss ss' :
  match pv with
  | Some fill => pad_batch_pure fill ss
  | None => Ok ss
  end = Ok ss' →
  Forall2 (λ s s', s'.*1 = s.*1) ss ss'.
Proof.
  destruct pv as [fill|].
  - unfold pad_batch_pure. destruct ss as [|s ss]; [done|]. simpl.
    apply pad_keys_pure_keys.
  - intros [= <-]. by apply Forall_Forall2_diag, Forall_forall.
Qed.

Lemma max_shape_nil_r s : max_shape s [] = s.
Proof. by destruct s. Qed.

Lemma max_shape_diag s : max_shape s s = s.
Proof. induction s as [|n s IH]; [done|]. simpl. by rewrite Nat.max_id, IH. Qed.

Lemma foldr_max_shape_const {A} (rows : list (ndarray A)) s :
  rows ≠ [] → Forall (λ a, shape a = s) rows →
  foldr max_shape [] (map shape rows) = s.
Proof.
  intros Hne Hall. induction Hall as [|a rows Ha Hrows IH]; [done|].
  cbn [map foldr]. rewrite Ha. destruct rows as [|b rows].
  - apply max_shape_nil_r.
  - rewrite IH by done. apply max_shape_diag.
Qed.

(** An array of shape [s] without an empty axis has [s] for its
    [shape]. *)
Lemma has_shape_shape {A} (a : ndarray A) :
  ∀ s, has_shape a s = true → Forall (lt 0) s → shape a = s.
Proof.
  induction a as [x|rows IH] using ndarray_induction; intros [|n s]; try done.
  cbn [has_shape shape]. intros [Hlen Hrows]%andb_true_iff Hpos.
  apply bool_decide_eq_true in Hlen.
  inversion Hpos as [|? ? Hn Hs]; subst. f_equal.
  apply foldr_max_shape_const.
  - intros ->. simpl in Hn. lia.
  - rewrite forallb_forall in Hrows. rewrite Forall_forall in IH.
    apply Forall_forall. intros r Hr.
    apply IH; [done| |done]. apply Hrows. by apply list_elem_of_In.
Qed.

(** [np.array] returns the stack, and returns it when the arrays have
    one shape. *)
Lemma np_array_Ok col a : np_array col = Ok a → a = Axis col.
Proof.
  destruct col as [|b rest]; simpl; [by intros [= <-]|].
  by case_match; intros [= <-].
Qed.

Lemma np_array_same_shape col shp :
  Forall (λ a, shape a = shp) col → np_array col = Ok (Axis col).
Proof.
  intros Hall. destruct col as [|b rest]; [done|]. simpl.
  inversion Hall as [|? ? Hb Hrest]; subst.
  assert (forallb (λ c, bool_decide (shape c = shape b)) rest = true) as ->; [|done].
  apply forallb_forall. intros c Hc%list_elem_of_In.
  apply bool_decide_eq_true. rewrite Forall_forall in Hrest. by apply Hrest.
Qed.

(** What [collate_spec] returns. *)
Lemma collate_spec_Ok ss r :
  collate_spec ss = Ok r →
  ∃ first, head ss = Some first ∧ r.*1 = first.*1
    ∧ Forall (λ kv, ∃ col, kv.2 = Axis col
                ∧ Forall2 (λ s v, dict_get s kv.1 = Some v) ss col) r.
Proof.
  unfold collate_spec. destruct ss as [|first rest]; [done|].
  cbn [first_of]. rewrite bind_Ok. intros Ht%traverse_Ok.
  exists first. split; [done|].
  induction Ht as [|key kv keys r Hkv _ [IH1 IH2]]; [by split|].
  unfold stack_key in Hkv.
  destruct (traverse (λ s, sample_get s (PyStr key)) (first :: rest))
    as [col|e] eqn:Hcol; [|done].
  rewrite bind_Ok in Hkv.
  destruct (np_array col) as [a|e] eqn:Ha; [|done].
  rewrite bind_Ok in Hkv. injection Hkv as <-.
  apply np_array_Ok in Ha as ->. split.
  - csimpl. by rewrite IH1.
  - constructor; [|done]. exists col. split; [done|].
    apply traverse_Ok in Hcol. eapply Forall2_impl; [exact Hcol|].
    intros s v. simpl. by destruct (dict_get s key); intros [= <-].
Qed.

(** [collate_spec] returns when the batch is not empty and, under
    every key of the first sample, every sample has an array, all of
    one shape. *)
Lemma collate_spec_total first rest :
  (∀ key, key ∈ first.*1 →
     ∃ shp, ∀ s, s ∈ first :: rest →
       ∃ a, dict_get s key = Some a ∧ shape a = shp) →
  ∃ r, collate_spec (first :: rest) = Ok r.
Proof.
  intros Hkeys. unfold collate_spec. cbn [first_of]. rewrite bind_Ok.
  cut (∀ keys, (∀ key, key ∈ keys → key ∈ first.*1) →
    ∃ r, traverse (stack_key (first :: rest)) keys = Ok r).
  { intros Hcut. by apply Hcut. }
  induction keys as [|key keys IH]; intros Hsub.
  - by exists [].
  - destruct IH as [r Hr]. { intros k Hk. apply Hsub. by right. }
    destruct (Hkeys key) as [shp Hshp]. { apply Hsub. by left. }
    assert (∃ col, traverse (λ s, sample_get s (PyStr key)) (first :: rest)
                   = Ok col ∧ Forall (λ a, shape a = shp) col)
      as (col & Hcol & Hsame).
    { assert (∀ l, (∀ s, s ∈ l → s ∈ first :: rest) →
        ∃ col, traverse (λ s, sample_get s (PyStr key)) l = Ok col
               ∧ Forall (λ a, shape a = shp) col) as Hl.
      { induction l as [|s l IHl]; intros Hin; [by exists []|].
        destruct IHl as (col & Hcol & Hsame).
        { intros s' Hs'. apply Hin. by right. }
        destruct (Hshp s) as (a & Ha & Hsa). { apply Hin. by left. }
        exists (a :: col). split; [|by constructor]. apply traverse_Ok.
        constructor; [simpl; by rewrite Ha | by apply traverse_Ok]. }
      by apply Hl. }
    exists ((key, Axis col) :: r). apply traverse_Ok.
    constructor; [|by apply traverse_Ok].
    unfold stack_key. rewrite Hcol, bind_Ok.
    by rewrite (np_array_same_shape _ _ Hsame), bind_Ok.
Qed.

(** C3: for a batch dataset whose item is a non-empty list of distinct
    sample mappings, on each of which the operations run, and whose
    samples, after the optional padding, have under every key of the
    first one an array of one common shape (without an empty axis),
    [__getitem__] returns one mapping; its keys are the keys of the
    first sample after the operations ran, and each key maps to the
    stacked array of that key's value in every sample, in list
    order. *)
Theorem getitem_batch_collates
    (self : OpDataset) (i x : nat) (h0 : list obj) (elems : list nat)
    (ss after_ops padded : list (list (string * ndarray Q)))
    (first_padded : list (string * ndarray Q)) :
  is_batch (self_dataset self) = true →
  stored (self_dataset self) !! i = Some x →
  h0 !! x = Some (OList elems) → NoDup elems → batch_at h0 elems ss →
  traverse (forward_numpyop_pure (self_ops self) (self_mode self)) ss
    = Ok after_ops →
  match pad_value (self_dataset self) with
  | Some fill => pad_batch_pure fill after_ops
  | None => Ok after_ops
  end = Ok padded →
  head padded = Some first_padded →
  Forall (λ key, ∃ shp, Forall (lt 0) shp
            ∧ Forall (λ s, ∃ a, dict_get s key = Some a
                           ∧ has_shape a shp = true) padded)
         first_padded.*1 →
  ∃ y h' r first,
    OpDataset_getitem self i h0 = Ok (y, h')
    ∧ read_sample h' y = Some r
    ∧ head after_ops = Some first
    ∧ r.*1 = first.*1
    ∧ Forall (λ kv, ∃ col, kv.2 = Axis col
                ∧ Forall2 (λ s v, dict_get s kv.1 = Some v) padded col) r.
Proof.
  intros Hb Hi Hx Hnd Hat Hops Hpad Hhead Hkeys.
  destruct padded as [|fp rest]; [done|]. injection Hhead as ->.
  destruct (collate_spec_total first_padded rest) as [r Hr].
  { intros key Hkey. eapply Forall_forall in Hkeys; [|exact Hkey].
    destruct Hkeys as (shp & Hpos & Hall). exists shp. intros s Hs.
    eapply Forall_forall in Hall; [|exact Hs].
    destruct Hall as (a & Ha & Hsh). exists a. split; [done|].
    by apply has_shape_shape. }
  pose proof (getitem_batch_sim self i h0 x elems ss Hb Hi Hx Hnd Hat) as Hsim.
  unfold getitem_batch_pure in Hsim.
  rewrite Hops, bind_Ok, Hpad, bind_Ok, Hr in Hsim.
  destruct Hsim as (y & h' & Hget & Hread & _).
  destruct (collate_spec_Ok _ _ Hr) as (f & [= <-] & Hk & Hvals).
  apply pad_opt_pure_keys in Hpad.
  inversion Hpad as [|first ? after_rest ? Hfk _]; subst.
  exists y, h', r, first. split_and!; try done. congruence.
Qed.

Lemma getitem_batch_collates_witness :
  ∃ y h' r first,
    OpDataset_getitem batch_wrapper 0 batch_store = Ok (y, h')
    ∧ read_sample h' y = Some r
    ∧ head [[("x", Axis [Scalar 0.2%Q; Scalar 0.7%Q]);
             ("y", Axis [Scalar 0%Q; Scalar 1%Q])];
            [("x", Axis [Scalar 0.9%Q]); ("y", Axis [Scalar 1%Q])]]
      = Some first
    ∧ r.*1 = first.*1
    ∧ Forall (λ kv, ∃ col, kv.2 = Axis col
                ∧ Forall2 (λ s v, dict_get s kv.1 = Some v)
                    [[("x", Axis [Scalar 0.2%Q; Scalar 0.7%Q]);
                      ("y", Axis [Scalar 0%Q; Scalar 1%Q])];
                     [("x", Axis [Scalar 0.9%Q; Scalar 0%Q]);
                      ("y", Axis [Scalar 1%Q; Scalar 0%Q])]] col) r.
Proof.
  apply (getitem_batch_collates batch_wrapper 0 4 batch_store [2; 3]
           [[("x", Axis [Scalar 0.2%Q; Scalar 0.7%Q])];
            [("x", Axis [Scalar 0.9%Q])]]
           _ _
           [("x", Axis [Scalar 0.2%Q; Scalar 0.7%Q]);
            ("y", Axis [Scalar 0%Q; Scalar 1%Q])]).
  - reflexivity.
  - reflexivity.
  - reflexivity.
  - apply (bool_decide_unpack _). vm_compute. exact I.
  - repeat constructor.
  - vm_compute. reflexivity.
  - vm_compute. reflexivity.
  - reflexivity.
  - repeat constructor; exists [2]; (split; [repeat constructor|]);
      repeat constructor; eexists; (split; reflexivity).
Defined.

(** The collated batch of the example: "x" and "y" each map to the
    two padded rows. *)
Example getitem_batch_example :
  ∃ y h', OpDataset_getitem batch_wrapper 0 batch_store = Ok (y, h')
    ∧ read_sample h' y
      = Some [("x", Axis [Axis [Scalar 0.2%Q; Scalar 0.7%Q];
                          Axis [Scalar 0.9%Q; Scalar 0%Q]]);
              ("y", Axis [Axis [Scalar 0%Q; Scalar 1%Q];
                          Axis [Scalar 1%Q; Scalar 0%Q]])].
Proof. do 2 eexists. split; vm_compute; reflexivity. Qed.

(** * Further properties *)

(** ** get_op_from_mode *)

Lemma applies_iff m o :
  applies m o = true
  ↔ mode o = Single PyNone ∨ mode o = Single m
    ∨ ∃ l, mode o = PyList l ∧ (PyNone ∈ l ∨ m ∈ l).
Proof.
  unfold applies, py_in. rewrite orb_true_iff, !bool_decide_eq_true.
  destruct (mode o) as [a|l]; simpl.
  - rewrite !list_elem_of_singleton. split.
    + intros [<-|<-]; auto.
    + intros [[= ->]|[[= ->]|(l & [=] & _)]]; auto.
  - split.
    + intros H. right. right. by exists l.
    + intros [[=]|[[=]|(l' & [= <-] & H)]]. done.
Qed.

(** X1: an operation is in the filtered list exactly when it is in the
    list and its mode is [None], is the target mode, or is a list that
    holds [None] or the target mode. *)
Theorem get_op_from_mode_elem_of (o : op) (l : list op) (m : atom) :
  o ∈ get_op_from_mode l m
  ↔ o ∈ l ∧ (mode o = Single PyNone ∨ mode o = Single m
             ∨ ∃ ml, mode o = PyList ml ∧ (PyNone ∈ ml ∨ m ∈ ml)).
Proof.
  rewrite get_op_from_mode_filter, <- applies_iff.
  rewrite !list_elem_of_In. apply List.filter_In.
Qed.

(** X2: filtering a concatenation is concatenating the filtered
    parts. *)
Theorem get_op_from_mode_concat (l1 l2 : list op) (m : atom) :
  get_op_from_mode (l1 ++ l2) m
  = get_op_from_mode l1 m ++ get_op_from_mode l2 m.
Proof.
  unfold get_op_from_mode. rewrite !get_op_from_mode_loop_filter.
  cbn [app]. apply List.filter_app.
Qed.

(** X3: filtering for one mode and then for another gives the same
    list in either order. *)
Theorem get_op_from_mode_commute (l : list op) (m1 m2 : atom) :
  get_op_from_mode (get_op_from_mode l m1) m2
  = get_op_from_mode (get_op_from_mode l m2) m1.
Proof.
  rewrite !get_op_from_mode_filter.
  induction l as [|o l IH]; [done|]. simpl.
  destruct (applies m1 o) eqn:E1, (applies m2 o) eqn:E2; simpl;
    rewrite ?E1, ?E2, IH; done.
Qed.

(** ** verify_ops *)

Lemma verify_ops_loop_types l cn cls inputs0 idx rest :
  verify_ops_loop l cn cls inputs0 idx rest = Ok tt →
  Forall (λ o, isinstance o cls = true) rest.
Proof.
  revert idx. induction rest as [|o rest IH]; intros idx Hok; [constructor|].
  cbn [verify_ops_loop] in Hok.
  destruct (isinstance o cls) eqn:Hinst; cbn [negb] in Hok; [|done].
  constructor; [done|]. apply (IH (S idx)).
  destruct (l !! S idx) as [nx|]; [|done].
  destruct (truthy (inputs nx)); cbn [andb] in Hok; [|done].
  destruct (negb (py_eq (inputs nx) inputs0)); [|done].
  by destruct (truthy (outputs o)).
Qed.

Lemma verify_ops_loop_complete l cn cls inputs0 idx rest :
  Forall (λ o, isinstance o cls = true) rest →
  (∀ k o next, rest !! k = Some o → l !! S (idx + k) = Some next →
     truthy (inputs next) = true → inputs next ≠ inputs0 →
     truthy (outputs o) = true) →
  verify_ops_loop l cn cls inputs0 idx rest = Ok tt.
Proof.
  intros Hty. revert idx. induction Hty as [|o rest Ho _ IH]; intros idx Hadj;
    [done|].
  cbn [verify_ops_loop]. rewrite Ho. cbn [negb].
  assert (verify_ops_loop l cn cls inputs0 (S idx) rest = Ok tt) as Hrest.
  { apply IH. intros k o' next Hk Hn. apply (Hadj (S k) o' next); [done|].
    by rewrite <- Nat.add_succ_comm. }
  rewrite Hrest.
  destruct (l !! S idx) as [nx|] eqn:Hnx; [|done].
  destruct (truthy (inputs nx)) eqn:Ht; cbn [andb]; [|done].
  unfold py_eq. destruct (decide (inputs nx = inputs0)) as [Heq|Hne].
  - by rewrite (bool_decide_eq_true_2 _ Heq).
  - rewrite (bool_decide_eq_false_2 _ Hne). cbn [negb].
    rewrite (Hadj 0 o nx); [done|done| |done|done].
    by rewrite Nat.add_0_r.
Qed.

Lemma verify_ops_loop_outcome l cn cls inputs0 idx rest :
  verify_ops_loop l cn cls inputs0 idx rest = Ok tt
  ∨ contract_violation (verify_ops_loop l cn cls inputs0 idx rest).
Proof.
  unfold contract_violation.
  revert idx. induction rest as [|o rest IH]; intros idx; [by left|].
  cbn [verify_ops_loop].
  destruct (isinstance o cls); cbn [negb]; [|by eauto].
  destruct (l !! S idx) as [nx|]; [|apply IH].
  destruct (truthy (inputs nx)); cbn [andb]; [|apply IH].
  destruct (negb (py_eq (inputs nx) inputs0)); [|apply IH].
  destruct (truthy (outputs o)); [apply IH|by eauto].
Qed.

(** X4: the lists [verify_ops] accepts are exactly those, for a known
    class name, that are not empty, start with non-empty inputs, end
    with non-empty outputs, hold only operations of the required
    class, and in which every operation followed by one whose inputs
    are non-empty and differ from the inputs of the first operation
    has non-empty outputs. *)
Theorem verify_ops_accepts_iff (l : list op) (cn : string) :
  verify_ops l cn = Ok tt
  ↔ ∃ cls first final,
      inheritage cn = Some cls ∧ head l = Some first ∧ last l = Some final
      ∧ truthy (inputs first) = true ∧ truthy (outputs final) = true
      ∧ Forall (λ o, isinstance o cls = true) l
      ∧ ∀ i o next, l !! i = Some o → l !! S i = Some next →
          truthy (inputs next) = true → inputs next ≠ inputs first →
          truthy (outputs o) = true.
Proof.
  unfold verify_ops. split.
  - intros Hok. destruct (inheritage cn) as [cls|]; [|done].
    destruct l as [|f l']; [done|].
    destruct (truthy (inputs f)) eqn:Hin; cbn [negb] in Hok; [|done].
    destruct (last (f :: l')) as [final|] eqn:Hlast; [|done].
    destruct (truthy (outputs final)) eqn:Hout; cbn [negb] in Hok; [|done].
    exists cls, f, final. split_and!; try done.
    + by eapply verify_ops_loop_types.
    + intros i o next Hi Hn Ht Hne.
      by apply (verify_ops_loop_ok _ _ _ _ _ _ Hok i o next).
  - intros (cls & first & final & -> & Hhd & Hlast & Hin & Hout & Hty & Hadj).
    destruct l as [|f l']; [done|]. injection Hhd as ->.
    rewrite Hin, Hlast, Hout. cbn [negb].
    apply verify_ops_loop_complete; [done|].
    intros k o next Hk Hn. by apply (Hadj k o next).
Qed.

(** X5: what [verify_ops] raises: KeyError for an unknown class name,
    whatever the list; IndexError for the empty list; and for a
    non-empty list under a known class name nothing but a failed
    assertion. *)
Theorem verify_ops_errors (l : list op) (cn : string) :
  (inheritage cn = None → verify_ops l cn = Raise (KeyError cn))
  ∧ (is_Some (inheritage cn) → l = [] → verify_ops l cn = Raise IndexError)
  ∧ (is_Some (inheritage cn) → l ≠ [] →
     verify_ops l cn = Ok tt ∨ contract_violation (verify_ops l cn)).
Proof.
  unfold verify_ops. split_and!.
  - by intros ->.
  - by intros [cls ->] ->.
  - intros [cls ->] Hne. destruct l as [|f l']; [done|].
    destruct (truthy (inputs f)); cbn [negb]; [|right; by eexists].
    destruct (last (f :: l')) as [final|] eqn:Hlast.
    + destruct (truthy (outputs final)); cbn [negb]; [|right; by eexists].
      apply verify_ops_loop_outcome.
    + by rewrite last_cons in Hlast; destruct (last l').
Qed.

(** ** flatten_operation *)

Lemma as_list_leaves_any t : concat (map leaves (as_list t)) = leaves t.
Proof. destruct t as [o|l]; [done|]. done. Qed.

(** X6: whatever the nesting, the operations found in the result, in
    depth-first order, are those of the argument: none is lost, added
    or moved. *)
Theorem flatten_operation_keeps_leaves (L : nested) :
  concat (map leaves (flatten_operation L)) = leaves L.
Proof.
  unfold flatten_operation. destruct L as [o|l]; [done|].
  cbn [as_list leaves].
  induction l as [|t l IH]; [done|].
  cbn [map concat]. rewrite map_app, concat_app, IH.
  by rewrite as_list_leaves_any.
Qed.

Lemma depth_elem_lt t l : t ∈ l → depth t < depth (Many l).
Proof.
  cbn [depth]. induction 1 as [t l|t t' l _ IH]; cbn [map foldr]; lia.
Qed.

(** X7: the result is at most two levels shallower: every element of
    the result is nested at most [depth L - 2] deep. *)
Theorem flatten_operation_depth (L : nested) :
  Forall (λ t, depth t ≤ depth L - 2) (flatten_operation L).
Proof.
  unfold flatten_operation. destruct L as [o|l].
  - cbn. repeat constructor.
  - cbn [as_list]. apply Forall_forall. intros t Ht.
    apply list_elem_of_In, List.in_concat in Ht as (ts & Hts & Ht).
    apply List.in_map_iff in Hts as (u & <- & Hu).
    apply list_elem_of_In in Hu, Ht.
    pose proof (depth_elem_lt _ _ Hu) as Hlt.
    destruct u as [o|l'].
    + apply list_elem_of_singleton in Ht as ->. cbn [depth]. lia.
    + cbn [as_list] in Ht. pose proof (depth_elem_lt _ _ Ht). lia.
Qed.

Lemma flatten_flat l :
  Forall (λ t, depth t ≤ 0) l → flatten_operation (Many l) = l.
Proof.
  unfold flatten_operation. cbn [as_list].
  induction 1 as [|t l Ht _ IH]; [done|].
  cbn [map concat]. rewrite IH.
  destruct t as [o|l']; [done|]. cbn [depth] in Ht. lia.
Qed.

Lemma flatten_shallow_flat (L : nested) :
  depth L ≤ 2 → Forall (λ t, depth t ≤ 0) (flatten_operation L).
Proof.
  unfold flatten_operation. destruct L as [o|l]; [by repeat constructor|].
  intros H. apply depth_Many_le in H. cbn [as_list].
  induction H as [|t l Ht _ IH]; [constructor|].
  cbn [map concat]. apply Forall_app. split; [|exact IH].
  rewrite (as_list_leaves t Ht). apply Forall_fmap, Forall_forall.
  intros o _. simpl. lia.
Qed.

(** X8: on an argument nested at most two deep the result is flat, and
    flattening it again changes nothing. *)
Theorem flatten_operation_twice (L : nested) :
  depth L ≤ 2 →
  flatten_operation (Many (flatten_operation L)) = flatten_operation L.
Proof.
  intros H. apply flatten_flat. by apply flatten_shallow_flat.
Qed.

Lemma flatten_operation_twice_witness :
  flatten_operation
    (Many (flatten_operation
             (Many [One chain_A; Many [One chain_B; One chain_C]])))
  = flatten_operation (Many [One chain_A; Many [One chain_B; One chain_C]]).
Proof. apply flatten_operation_twice. simpl. lia. Defined.

(** ** OneOf *)

(** X9: the [forward] of a constructed OneOf is the [forward] of one of
    the children it was built from, the one at the position of the
    draw reduced modulo their number; so every child is taken by some
    draw. *)
Theorem OneOf_forward_child (children : list op) (self : OneOf) :
  OneOf_init children = Ok self →
  numpy_ops self = children
  ∧ (∀ r d st, ∃ c, children !! (r `mod` length children) = Some c
       ∧ OneOf_forward self r d st = forward c d st)
  ∧ (∀ i c d st, children !! i = Some c →
       OneOf_forward self i d st = forward c d st).
Proof.
  unfold OneOf_init. destruct children as [|first rest]; [done|].
  destruct (OneOf_check _ _ _ rest) as [[]|e]; [|done].
  rewrite bind_Ok. intros [= <-]. cbn [numpy_ops].
  split_and!; [done| |].
  - intros r d st.
    destruct ((first :: rest) !! (r `mod` length (first :: rest))) as [c|]
      eqn:Hc.
    + exists c. split; [done|].
      unfold OneOf_forward, random_choice. cbn [numpy_ops]. by rewrite Hc.
    + apply lookup_ge_None in Hc.
      pose proof (Nat.mod_upper_bound r (length (first :: rest))) as Hub.
      cbn [length] in *. lia.
  - intros i c d st Hc.
    unfold OneOf_forward, random_choice. cbn [numpy_ops].
    rewrite Nat.mod_small by by eapply lookup_lt_Some. by rewrite Hc.
Qed.

Lemma OneOf_forward_child_witness :
  let children := [Binarize 0.5%Q (Single (PyStr "x")) (Single (PyStr "x"))
                     (Single PyNone);
                   Binarize 0.25%Q (Single (PyStr "x")) (Single (PyStr "x"))
                     (Single PyNone)] in
  let self := {| oneof_inputs := Single (PyStr "x");
                 oneof_outputs := Single (PyStr "x");
                 oneof_mode := Single PyNone; numpy_ops := children |} in
  numpy_ops self = children
  ∧ (∀ r d st, ∃ c, children !! (r `mod` length children) = Some c
       ∧ OneOf_forward self r d st = forward c d st)
  ∧ (∀ i c d st, children !! i = Some c →
       OneOf_forward self i d st = forward c d st).
Proof.
  intros children self.
  apply (OneOf_forward_child children self). reflexivity.
Defined.

(** ** Binarize *)

Lemma amap_amap {A B C} (f : A → B) (g : B → C) a :
  amap g (amap f a) = amap (λ x, g (f x)) a.
Proof.
  induction a as [x|rows IH] using ndarray_induction; [done|].
  simpl. f_equal. rewrite List.map_map.
  induction IH as [|r rows Hr _ IHrows]; [done|]. simpl. by rewrite Hr, IHrows.
Qed.

Lemma amap_ext {A B} (f g : A → B) a :
  (∀ x, f x = g x) → amap f a = amap g a.
Proof.
  intros Hfg. induction a as [x|rows IH] using ndarray_induction.
  - simpl. by rewrite Hfg.
  - simpl. f_equal.
    induction IH as [|r rows Hr _ IHrows]; [done|]. simpl. by rewrite Hr, IHrows.
Qed.

Lemma elements_amap {A B} (f : A → B) a :
  elements (amap f a) = f <$> elements a.
Proof.
  induction a as [x|rows IH] using ndarray_induction; [done|].
  simpl. rewrite List.map_map.
  induction IH as [|r rows Hr _ IHrows]; [done|].
  simpl. by rewrite fmap_app, Hr, IHrows.
Qed.

(** X10: for every threshold, [forward] returns as many arrays as it
    was given, each of the shape of its input and holding only 0
    and 1. *)
Theorem Binarize_forward_zero_one (t : Q) (l : list (ndarray Q)) (st : state) :
  ∃ out, Binarize_forward t (DList l) st = Ok (DList out)
    ∧ length out = length l
    ∧ Forall2 (λ a b, shape b = shape a
                 ∧ Forall (λ y, y = 0%Q ∨ y = 1%Q) (elements b)) l out.
Proof.
  eexists. split; [reflexivity|]. split; [by rewrite length_map|].
  induction l as [|a l IH]; [constructor|].
  cbn [map]. constructor; [|exact IH]. split.
  - unfold astype_float32, ge_threshold. by rewrite !shape_amap.
  - unfold astype_float32, ge_threshold. rewrite amap_amap, elements_amap.
    apply Forall_fmap, Forall_forall. intros x _. simpl.
    destruct (Qle_bool t x); auto.
Qed.

(** X11: with a threshold above 0 and at most 1 that float32 holds
    exactly (so that bringing it to the type of the binarized arrays
    leaves it above 0), binarizing what was binarized changes
    nothing. *)
Theorem Binarize_forward_idempotent
    (t : Q) (l out : list (ndarray Q)) (st : state) :
  float32_exact t → (0 < t)%Q → (t <= 1)%Q →
  Binarize_forward t (DList l) st = Ok (DList out) →
  Binarize_forward t (DList out) st = Ok (DList out).
Proof.
  intros _ H0 H1 [= <-]. cbn [Binarize_forward]. do 2 f_equal.
  rewrite List.map_map. apply List.map_ext. intros a.
  unfold astype_float32, ge_threshold. rewrite !amap_amap.
  apply amap_ext. intros x.
  destruct (Qle_bool t x).
  - by rewrite (proj2 (Qle_bool_iff t 1) H1).
  - destruct (Qle_bool t 0) eqn:E; [|done].
    apply Qle_bool_iff in E. by apply Qle_not_lt in E.
Qed.

Lemma Binarize_forward_idempotent_witness :
  Binarize_forward 0.5%Q
    (DList [Axis [Scalar 0%Q; Scalar 1%Q]]) {| st_mode := PyNone |}
  = Ok (DList [Axis [Scalar 0%Q; Scalar 1%Q]]).
Proof.
  apply (Binarize_forward_idempotent 0.5%Q [Axis [Scalar 0.2%Q; Scalar 0.7%Q]]).
  - exists 1%Z, (-1)%Z. split_and!; [reflexivity|discriminate|discriminate|reflexivity].
  - reflexivity.
  - discriminate.
  - reflexivity.
Defined.

(** ** Reshape *)

Lemma chunks_spec {A} (n k : nat) (l : list A) :
  length l = k * n →
  concat (chunks n k l) = l
  ∧ Forall (λ c, length c = n) (chunks n k l)
  ∧ length (chunks n k l) = k.
Proof.
  revert l. induction k as [|k IH]; intros l Hlen.
  - destruct l; [by split_and!|done].
  - cbn [chunks concat length].
    destruct (IH (drop n l)) as (Hc & Hf & Hl).
    { rewrite length_drop. lia. }
    split_and!.
    + by rewrite Hc, take_drop.
    + constructor; [|done]. rewrite length_take. lia.
    + by rewrite Hl.
Qed.

Lemma chunks_concat {A} (n : nat) (cs : list (list A)) :
  Forall (λ c, length c = n) cs → chunks n (length cs) (concat cs) = cs.
Proof.
  induction 1 as [|c cs Hc _ IH]; [done|].
  cbn [length concat chunks].
  rewrite take_app_length' by done. rewrite drop_app_length' by done.
  by rewrite IH.
Qed.

Lemma size_of_pos s : Forall (lt 0) s → 0 < size_of s.
Proof.
  induction 1 as [|n s Hn _ IH]; cbn [size_of foldr]; [lia|].
  fold (size_of s). nia.
Qed.

(** Building from the right number of elements succeeds, keeps the
    elements in order and gives the shape asked for. *)
Lemma build_ok {A} (s : list nat) :
  ∀ l : list A, length l = size_of s →
    ∃ a, build s l = Some a ∧ elements a = l ∧ has_shape a s = true
      ∧ (Forall (lt 0) s → shape a = s).
Proof.
  induction s as [|n s IH]; intros l Hlen.
  - destruct l as [|x [|y l]]; try done. exists (Scalar x). by split_and!.
  - cbn [size_of foldr] in Hlen. fold (size_of s) in Hlen.
    destruct (chunks_spec (size_of s) n l Hlen) as (Hc & Hf & Hl).
    assert (∀ cs : list (list A), Forall (λ c, length c = size_of s) cs →
      ∃ rows, mapM (build s) cs = Some rows ∧ map elements rows = cs
        ∧ Forall (λ a, has_shape a s = true
                       ∧ (Forall (lt 0) s → shape a = s)) rows) as Hrows.
    { induction 1 as [|c cs Hcl _ IHcs]; [by exists []|].
      destruct (IH c Hcl) as (a & Ha & Hea & Hsa & Hpa).
      destruct IHcs as (rows & Hm & He & Hall).
      exists (a :: rows). cbn [mapM]. rewrite Ha, Hm. cbn.
      split_and!; [done|by rewrite Hea, He|by constructor]. }
    destruct (Hrows _ Hf) as (rows & Hm & He & Hall).
    assert (length rows = n) as Hrl.
    { rewrite <- Hl, <- He. by rewrite length_map. }
    exists (Axis rows). cbn [build]. rewrite Hm. cbn.
    split_and!; [done|by rewrite He| |].
    + rewrite bool_decide_eq_true_2 by done. cbn.
      apply forallb_forall. intros r Hr. apply list_elem_of_In in Hr.
      eapply Forall_forall in Hall; [|exact Hr]. by destruct Hall.
    + intros Hpos. apply Forall_cons in Hpos as [Hn Hpos].
      rewrite Hrl. f_equal. apply foldr_max_shape_const.
      * intros ->. cbn in Hrl. lia.
      * eapply Forall_impl; [exact Hall|]. intros a [_ Ha]. by apply Ha.
Qed.

Lemma size_of_cons n s : size_of (n :: s) = n * size_of s.
Proof. done. Qed.

Lemma size_of_subst (q : nat) (dims : list Z) :
  size_of ((λ d, if bool_decide (d < 0)%Z then q else Z.to_nat d) <$> dims)
  = size_of (Z.to_nat <$> filter (λ d, (0 ≤ d)%Z) dims)
    * q ^ length (filter (λ d, (d < 0)%Z) dims).
Proof.
  induction dims as [|d dims IH]; [done|].
  rewrite fmap_cons, !filter_cons, size_of_cons, IH.
  case_bool_decide as Hd; repeat case_decide; try lia.
  - cbn [length Nat.pow]. lia.
  - rewrite fmap_cons, size_of_cons. lia.
Qed.

Lemma filter_none_negative (dims : list Z) :
  length (filter (λ d, (d < 0)%Z) dims) = 0 →
  filter (λ d, (0 ≤ d)%Z) dims = dims.
Proof.
  induction dims as [|d dims IH]; [done|].
  rewrite !filter_cons. repeat case_decide; try done; try lia.
  intros Hlen. by rewrite IH.
Qed.

(** The shape numpy works out has as many elements as the array. *)
Lemma resolve_shape_size size dims s :
  resolve_shape size dims = Some s → size_of s = size.
Proof.
  unfold resolve_shape.
  destruct (length (filter (λ d, (d < 0)%Z) dims)) as [|[|c]] eqn:Hc; [| |done].
  - case_bool_decide as Hk; [|done]. intros [= <-].
    by rewrite filter_none_negative in Hk.
  - case_bool_decide as Hk; [done|]. case_bool_decide as Hm; [|done].
    intros [= <-]. rewrite size_of_subst, Hc. cbn [Nat.pow].
    rewrite Nat.mul_1_r.
    symmetry. by apply Nat.Div0.div_exact.
Qed.

Lemma np_reshape_elements {A} (a b : ndarray A) dims :
  np_reshape a dims = Some b →
  elements b = elements a ∧ ∃ s, has_shape b s = true.
Proof.
  unfold np_reshape.
  destruct (resolve_shape (length (elements a)) dims) as [s|] eqn:Hs; [|done].
  cbn. intros Hb. apply resolve_shape_size in Hs.
  destruct (build_ok s (elements a)) as (a' & Ha' & He & Hsh & _); [done|].
  rewrite Ha' in Hb. injection Hb as <-. split; [done|]. by exists s.
Qed.

(** X12: when [forward] returns, it returns as many arrays as it was
    given, and each holds the elements of its input in the same
    row-major order. *)
Theorem Reshape_forward_elements
    (shp : shape_arg) (data out : list (ndarray Q)) (st : state) :
  Reshape_forward shp data st = Some out →
  length out = length data
  ∧ Forall2 (λ a b, elements b = elements a) data out.
Proof.
  unfold Reshape_forward. intros Hm%mapM_Some.
  split; [symmetry; by eapply Forall2_length|].
  eapply Forall2_impl; [exact Hm|].
  intros a b Hab. by apply np_reshape_elements in Hab as [? _].
Qed.

Lemma Reshape_forward_elements_witness :
  length [Axis [Axis [Scalar 1%Q]; Axis [Scalar 2%Q]; Axis [Scalar 3%Q]]]
  = length [Axis [Scalar 1%Q; Scalar 2%Q; Scalar 3%Q]]
  ∧ Forall2 (λ a b, elements b = elements a)
      [Axis [Scalar 1%Q; Scalar 2%Q; Scalar 3%Q]]
      [Axis [Axis [Scalar 1%Q]; Axis [Scalar 2%Q]; Axis [Scalar 3%Q]]].
Proof.
  apply (Reshape_forward_elements (ShapeTuple [(-2)%Z; 1%Z]) _ _
           {| st_mode := PyNone |}).
  reflexivity.
Defined.

Lemma resolve_shape_nonneg size (dims : list Z) :
  Forall (λ d, (0 ≤ d)%Z) dims →
  resolve_shape size dims
  = if bool_decide (size_of (Z.to_nat <$> dims) = size)
    then Some (Z.to_nat <$> dims) else None.
Proof.
  intros Hpos. unfold resolve_shape.
  assert (filter (λ d, (d < 0)%Z) dims = []) as Hnone.
  { induction Hpos as [|d dims Hd _ IH]; [done|].
    rewrite filter_cons. case_decide; [lia|done]. }
  rewrite Hnone. cbn [length].
  rewrite filter_none_negative by by rewrite Hnone. done.
Qed.

Lemma to_nat_of_nat (s : list nat) : Z.to_nat <$> (Z.of_nat <$> s) = s.
Proof.
  induction s as [|n s IH]; [done|]. rewrite !fmap_cons, IH. by rewrite Nat2Z.id.
Qed.

Lemma of_nat_nonneg (s : list nat) : Forall (λ d, (0 ≤ d)%Z) (Z.of_nat <$> s).
Proof. apply Forall_fmap, Forall_forall. intros n _. simpl. lia. Qed.

(** X13: for a target shape of positive dimensions whose product is
    the number of elements of the array, the reshape succeeds and the
    result has the target shape. *)
Theorem Reshape_apply_reshape_shape (dims : list nat) (a : ndarray Q) :
  Forall (lt 0) dims → length (elements a) = size_of dims →
  ∃ b, Reshape_apply_reshape (ShapeTuple (Z.of_nat <$> dims)) a = Some b
    ∧ shape b = dims ∧ elements b = elements a.
Proof.
  intros Hpos Hlen. unfold Reshape_apply_reshape, np_reshape. cbn [dims_of].
  rewrite resolve_shape_nonneg by apply of_nat_nonneg.
  rewrite to_nat_of_nat, bool_decide_eq_true_2 by done. cbn.
  destruct (build_ok dims (elements a) Hlen) as (b & Hb & He & _ & Hs).
  exists b. split_and!; [done|by apply Hs|done].
Qed.

Lemma Reshape_apply_reshape_shape_witness :
  ∃ b, Reshape_apply_reshape (ShapeTuple (Z.of_nat <$> [3; 1]))
         (Axis [Scalar 1%Q; Scalar 2%Q; Scalar 3%Q]) = Some b
    ∧ shape b = [3; 1]
    ∧ elements b = elements (Axis [Scalar 1%Q; Scalar 2%Q; Scalar 3%Q]).
Proof.
  apply Reshape_apply_reshape_shape.
  - repeat constructor.
  - reflexivity.
Defined.

(** X14: with a target shape of non-negative dimensions, [forward]
    raises as soon as one array of [data] has a number of elements
    other than the product of the dimensions. *)
Theorem Reshape_forward_size_mismatch
    (shp : shape_arg) (data : list (ndarray Q)) (st : state) :
  Forall (λ d, (0 ≤ d)%Z) (dims_of shp) →
  Exists (λ a, length (elements a) ≠ size_of (Z.to_nat <$> dims_of shp)) data →
  Reshape_forward shp data st = None.
Proof.
  intros Hpos Hex. unfold Reshape_forward.
  destruct (mapM (Reshape_apply_reshape shp) data) as [out|] eqn:Hm; [|done].
  apply mapM_Some in Hm. exfalso.
  induction Hm as [|a b data out Hab _ IH].
  - by apply Exists_nil in Hex.
  - apply Exists_cons in Hex as [Hne|Hex]; [|by apply IH].
    unfold Reshape_apply_reshape, np_reshape in Hab.
    rewrite resolve_shape_nonneg in Hab by done.
    rewrite bool_decide_eq_false_2 in Hab by done. done.
Qed.

Lemma Reshape_forward_size_mismatch_witness :
  Reshape_forward (ShapeTuple [2%Z; 2%Z])
    [Axis [Scalar 1%Q; Scalar 2%Q; Scalar 3%Q]] {| st_mode := PyNone |} = None.
Proof.
  apply Reshape_forward_size_mismatch.
  - repeat constructor; done.
  - left. simpl. lia.
Defined.

Lemma build_scalars {A} (l : list A) :
  mapM (build []) (chunks 1 (length l) l) = Some (Scalar <$> l).
Proof.
  apply mapM_Some.
  induction l as [|x l IH]; [constructor|].
  cbn [length chunks take drop fmap list_fmap]. by constructor.
Qed.

Lemma build_flat {A} (l : list A) :
  build [length l] l = Some (Axis (Scalar <$> l)).
Proof.
  change (build [length l] l)
    with (mapM (build []) (chunks 1 (length l) l)
            ≫= λ rows, Some (Axis rows)).
  by rewrite build_scalars.
Qed.

(** X15: the shape -1 flattens: the result is the one-dimensional
    array of the elements in row-major order, for every array. *)
Theorem Reshape_minus_one_flattens (a : ndarray Q) :
  Reshape_apply_reshape (ShapeInt (-1)) a = Some (Axis (Scalar <$> elements a)).
Proof.
  unfold Reshape_apply_reshape, np_reshape, resolve_shape. cbn [dims_of].
  change (filter (λ d, (d < 0)%Z) [(-1)%Z]) with [(-1)%Z].
  change (filter (λ d, (0 ≤ d)%Z) [(-1)%Z]) with (@nil Z).
  cbn [length fmap list_fmap size_of foldr].
  rewrite bool_decide_eq_false_2 by done.
  rewrite (Nat.mod_1_r (length (elements a))).
  rewrite (bool_decide_eq_true_2 (0 = 0)) by done.
  rewrite (bool_decide_eq_true_2 (-1 < 0)%Z) by done. rewrite Nat.div_1_r.
  cbn [mbind option_bind]. apply build_flat.
Qed.

(** An array of shape [s] has as many elements as [s] says, and is
    what [build] makes of them. *)
Lemma has_shape_build {A} (a : ndarray A) :
  ∀ s, has_shape a s = true →
    length (elements a) = size_of s ∧ build s (elements a) = Some a.
Proof.
  induction a as [x|rows IH] using ndarray_induction; intros s Hs.
  - destruct s; [done|done].
  - destruct s as [|n s]; [done|]. cbn [has_shape] in Hs.
    apply andb_true_iff in Hs as [Hn Hall].
    apply bool_decide_eq_true in Hn.
    assert (Forall (λ r, length (elements r) = size_of s
                         ∧ build s (elements r) = Some r) rows) as Hrows.
    { apply Forall_forall. intros r Hr.
      eapply Forall_forall in IH; [|exact Hr]. apply IH.
      eapply forallb_forall in Hall; [exact Hall|]. by apply list_elem_of_In. }
    clear IH Hall. cbn [elements build].
    assert (Forall (λ c, length c = size_of s) (map elements rows)) as Hlens.
    { apply Forall_fmap. eapply Forall_impl; [exact Hrows|]. by intros r [? _]. }
    split.
    + rewrite size_of_cons, <- Hn. clear Hn.
      induction Hrows as [|r rows [Hr _] _ IHr]; [done|].
      cbn [map concat length]. rewrite length_app, Hr.
      apply Forall_cons in Hlens as [_ Hlens]. rewrite (IHr Hlens). lia.
    + rewrite <- Hn, <- (length_map elements rows).
      rewrite chunks_concat by done.
      assert (mapM (build s) (map elements rows) = Some rows) as ->; [|done].
      apply mapM_Some, Forall2_fmap_l, Forall_Forall2_diag.
      eapply Forall_impl; [exact Hrows|]. by intros r [_ ?].
Qed.

(** X16: reshaping an array of shape [s] to any shape and the result
    back to [s] gives the array again. *)
Theorem np_reshape_round_trip (a b : ndarray Q) (s : list nat) (dims : list Z) :
  has_shape a s = true →
  Reshape_apply_reshape (ShapeTuple dims) a = Some b →
  Reshape_apply_reshape (ShapeTuple (Z.of_nat <$> s)) b = Some a.
Proof.
  unfold Reshape_apply_reshape. cbn [dims_of]. intros Hs Hb.
  apply np_reshape_elements in Hb as [He _].
  destruct (has_shape_build a s Hs) as [Hlen Hbuild].
  unfold np_reshape. rewrite resolve_shape_nonneg by apply of_nat_nonneg.
  rewrite to_nat_of_nat, He, bool_decide_eq_true_2 by done. done.
Qed.

Lemma np_reshape_round_trip_witness :
  Reshape_apply_reshape (ShapeTuple (Z.of_nat <$> [3]))
    (Axis [Axis [Scalar 1%Q]; Axis [Scalar 2%Q]; Axis [Scalar 3%Q]])
  = Some (Axis [Scalar 1%Q; Scalar 2%Q; Scalar 3%Q]).
Proof.
  apply (np_reshape_round_trip _ _ [3] [(-3)%Z; 1%Z]); reflexivity.
Defined.

(** ** Myrescale *)

Lemma rescale_range (q : Q) :
  (0 <= q <= 255)%Q → (-1 <= (q - 127.5) / 127.5 <= 1)%Q.
Proof. intros H. unfold Qdiv. change (/ 127.5)%Q with (10 # 1275)%Q. lra. Qed.

Lemma rescale_lt (p q : Q) :
  (p < q)%Q → ((p - 127.5) / 127.5 < (q - 127.5) / 127.5)%Q.
Proof. intros H. unfold Qdiv. change (/ 127.5)%Q with (10 # 1275)%Q. lra. Qed.

(** X17: an image of values between 0 and 255 is mapped to an array
    of the same shape with values between -1 and 1. *)
Theorem Myrescale_forward_range (a : ndarray Z) (st : state) :
  Forall (λ x, (0 ≤ x ≤ 255)%Z) (elements a) →
  shape (Myrescale_forward a st) = shape a
  ∧ Forall (λ y, (-1 <= y <= 1)%Q) (elements (Myrescale_forward a st)).
Proof.
  intros Hin. unfold Myrescale_forward. split; [apply shape_amap|].
  rewrite elements_amap. apply Forall_fmap.
  eapply Forall_impl; [exact Hin|]. intros x [H0 H255]. simpl.
  apply rescale_range. split.
  - change 0%Q with (inject_Z 0). by rewrite <- Zle_Qle.
  - change 255%Q with (inject_Z 255). by rewrite <- Zle_Qle.
Qed.

Lemma Myrescale_forward_range_witness :
  shape (Myrescale_forward (Axis [Scalar 0%Z; Scalar 128%Z; Scalar 255%Z])
           {| st_mode := PyNone |})
  = shape (Axis [Scalar 0%Z; Scalar 128%Z; Scalar 255%Z])
  ∧ Forall (λ y, (-1 <= y <= 1)%Q)
      (elements (Myrescale_forward
                   (Axis [Scalar 0%Z; Scalar 128%Z; Scalar 255%Z])
                   {| st_mode := PyNone |})).
Proof.
  apply Myrescale_forward_range. repeat constructor; done.
Defined.

(** X18: among pixel values, 0 to 255, the rescaling sends a larger
    value to a larger value, so that distinct pixel values stay
    distinct; it sends 0 to -1 and 255 to 1. *)
Theorem Myrescale_forward_order (x y : Z) (st : state) :
  (0 ≤ x)%Z → (x < y)%Z → (y ≤ 255)%Z →
  ∃ fx fy, Myrescale_forward (Axis [Scalar x; Scalar y]) st
           = Axis [Scalar fx; Scalar fy]
    ∧ (fx < fy)%Q
    ∧ (x = 0%Z → (fx == -1)%Q)
    ∧ (y = 255%Z → (fy == 1)%Q).
Proof.
  intros H0 Hxy H255. do 2 eexists. split; [reflexivity|]. split_and!.
  - apply rescale_lt. by rewrite <- Zlt_Qlt.
  - by intros ->.
  - by intros ->.
Qed.

Lemma Myrescale_forward_order_witness :
  ∃ fx fy, Myrescale_forward (Axis [Scalar 0%Z; Scalar 255%Z])
             {| st_mode := PyNone |}
           = Axis [Scalar fx; Scalar fy]
    ∧ (fx < fy)%Q
    ∧ (0%Z = 0%Z → (fx == -1)%Q)
    ∧ (255%Z = 255%Z → (fy == 1)%Q).
Proof. apply Myrescale_forward_order; lia. Defined.

(** ** OpDataset.__getitem__: edge cases *)

(** X19: for a batch dataset whose item is the empty list,
    [__getitem__] raises IndexError, whatever the operations and the
    pad value. *)
Theorem getitem_empty_batch (self : OpDataset) (i x : nat) (h0 : list obj) :
  is_batch (self_dataset self) = true →
  stored (self_dataset self) !! i = Some x →
  h0 !! x = Some (OList []) →
  OpDataset_getitem self i h0 = Raise IndexError.
Proof.
  intros Hb Hi Hx.
  assert (batch_at h0 [] []) as Hat by constructor.
  pose proof (getitem_batch_sim self i h0 x [] [] Hb Hi Hx (NoDup_nil_2) Hat)
    as Hsim.
  unfold getitem_batch_pure in Hsim. cbn [traverse] in Hsim.
  rewrite bind_Ok in Hsim.
  by destruct (pad_value (self_dataset self)).
Qed.

Lemma getitem_empty_batch_witness :
  OpDataset_getitem empty_batch_wrapper 0 empty_batch_store = Raise IndexError.
Proof. apply (getitem_empty_batch empty_batch_wrapper 0 0); reflexivity. Defined.

Lemma traverse_cons {A B} (f : A → result B) x l :
  traverse f (x :: l) = f x ≫= λ y, traverse f l ≫= λ ys, Ok (y :: ys).
Proof. done. Qed.

Lemma traverse_get_outcome (ss : list (list (string * ndarray Q))) key :
  (∃ col, traverse (λ s, sample_get s (PyStr key)) ss = Ok col)
  ∨ (Exists (λ s, dict_get s key = None) ss
     ∧ traverse (λ s, sample_get s (PyStr key)) ss = Raise (KeyError key)).
Proof.
  induction ss as [|s ss IH]; [left; by exists []|].
  rewrite traverse_cons.
  destruct (dict_get s key) as [a|] eqn:Hg.
  - assert (sample_get s (PyStr key) = Ok a) as ->
      by (unfold sample_get; by rewrite Hg).
    rewrite !bind_Ok. destruct IH as [[col ->]|[Hex ->]].
    + left. by eexists.
    + right. split; [by right|done].
  - assert (sample_get s (PyStr key) = Raise (KeyError key)) as ->
      by (unfold sample_get; by rewrite Hg).
    right. split; [by left|done].
Qed.




Lemma stack_key_uneven first rest key a0 s a :
  Forall (λ s, is_Some (dict_get s key)) (first :: rest) →
  dict_get first key = Some a0 →
  s ∈ rest → dict_get s key = Some a → shape a ≠ shape a0 →
  stack_key (first :: rest) key = Raise ValueError.
Proof.
  intros Hall Hf Hs Ha Hne. unfold stack_key.
  destruct (traverse_get_outcome (first :: rest) key) as [[col Hcol]|[Hex _]].
  - rewrite Hcol, bind_Ok. apply traverse_Ok in Hcol.
    inversion Hcol as [|? b ? col' Hb Hrest]; subst.
    unfold sample_get in Hb. rewrite Hf in Hb. injection Hb as <-.
    cbn [np_array].
    destruct (forallb (λ b, bool_decide (shape b = shape a0)) col') eqn:Hfa;
      [|done].
    exfalso. rewrite forallb_forall in Hfa.
    apply list_elem_of_lookup in Hs as [j Hj].
    destruct (Forall2_lookup_l _ _ _ _ _ Hrest Hj) as (c & Hc & Hsc).
    unfold sample_get in Hsc. rewrite Ha in Hsc. injection Hsc as <-.
    apply Hne. eapply bool_decide_eq_true, Hfa, list_elem_of_In.
    by eapply list_elem_of_lookup_2.
  - exfalso. apply Exists_exists in Hex as (s' & Hs' & Hnone).
    eapply Forall_forall in Hall; [|exact Hs']. rewrite Hnone in Hall.
    by destruct Hall.
Qed.



(** X22: without padding, when the operations ran on every sample of
    the batch, every sample has the first key of the first sample, and
    the array of some sample under that key differs in shape from the
    array of the first sample, [__getitem__] raises ValueError. *)
Theorem getitem_batch_uneven
    (self : OpDataset) (i x : nat) (h0 : list obj) (elems : list nat)
    (ss rest : list (list (string * ndarray Q)))
    (first s : list (string * ndarray Q)) (key : string) (a0 a : ndarray Q) :
  is_batch (self_dataset self) = true →
  pad_value (self_dataset self) = None →
  stored (self_dataset self) !! i = Some x →
  h0 !! x = Some (OList elems) → NoDup elems → batch_at h0 elems ss →
  traverse (forward_numpyop_pure (self_ops self) (self_mode self)) ss
    = Ok (first :: rest) →
  head first = Some (key, a0) →
  Forall (λ s, is_Some (dict_get s key)) rest →
  s ∈ rest → dict_get s key = Some a → shape a ≠ shape a0 →
  OpDataset_getitem self i h0 = Raise ValueError.
Proof.
  intros Hb Hpad Hi Hx Hnd Hat Hops Hhead Hall Hs Ha Hne.
  pose proof (getitem_batch_sim self i h0 x elems ss Hb Hi Hx Hnd Hat) as Hsim.
  unfold getitem_batch_pure in Hsim.
  rewrite Hops, bind_Ok, Hpad, bind_Ok in Hsim.
  destruct first as [|[k v] more]; [done|]. injection Hhead as -> ->.
  assert (dict_get ((key, a0) :: more) key = Some a0) as Hf.
  { simpl. by rewrite bool_decide_eq_true_2. }
  unfold collate_spec in Hsim. cbn [first_of] in Hsim.
  rewrite bind_Ok, fmap_cons, traverse_cons in Hsim.
  rewrite (stack_key_uneven _ rest key a0 s a) in Hsim; try done.
  constructor; [by rewrite Hf|done].
Qed.

Lemma getitem_batch_uneven_witness :
  OpDataset_getitem ragged_wrapper 0 batch_store = Raise ValueError.
Proof.
  apply (getitem_batch_uneven ragged_wrapper 0 4 batch_store [2; 3]
           [[("x", Axis [Scalar 0.2%Q; Scalar 0.7%Q])];
            [("x", Axis [Scalar 0.9%Q])]]
           [[("x", Axis [Scalar 0.9%Q])]]
           [("x", Axis [Scalar 0.2%Q; Scalar 0.7%Q])]
           [("x", Axis [Scalar 0.9%Q])] "x"
           (Axis [Scalar 0.2%Q; Scalar 0.7%Q]) (Axis [Scalar 0.9%Q])).
  - reflexivity.
  - reflexivity.
  - reflexivity.
  - reflexivity.
  - apply (bool_decide_unpack _). vm_compute. exact I.
  - repeat constructor.
  - reflexivity.
  - reflexivity.
  - repeat constructor. by eexists.
  - left.
  - reflexivity.
  - discriminate.
Defined.

(** X21: a wrapper without operations around an item-level dataset
    returns a new mapping with the value of the stored one, and leaves
    the objects of the store as they were. *)
Theorem getitem_no_ops
    (self : OpDataset) (i x : nat) (h0 : list obj)
    (s : list (string * ndarray Q)) :
  is_batch (self_dataset self) = false →
  self_ops self = [] →
  stored (self_dataset self) !! i = Some x →
  read_sample h0 x = Some s →
  ∃ y h', OpDataset_getitem self i h0 = Ok (y, h')
    ∧ read_sample h' y = Some s
    ∧ length h0 ≤ y
    ∧ take (length h0) h' = h0.
Proof.
  intros Hb Hops Hi Hs.
  pose proof (getitem_sample_sim self i h0 x s Hb Hi Hs) as Hsim.
  unfold getitem_sample_pure, forward_numpyop_pure, forward_numpyop_on in Hsim.
  rewrite Hops in Hsim. cbn [get_op_from_mode get_op_from_mode_loop foldM] in Hsim.
  destruct Hsim as (y & h' & Hget & Hr & Htake & _ & Hreach).
  exists y, h'. split_and!; [done|done| |done].
  apply Hreach. constructor.
Qed.

Lemma getitem_no_ops_witness :
  ∃ y h', OpDataset_getitem plain_wrapper 0 scenario_store = Ok (y, h')
    ∧ read_sample h' y = Some [("x", Axis [Scalar 0.2%Q; Scalar 0.7%Q])]
    ∧ length scenario_store ≤ y
    ∧ take (length scenario_store) h' = scenario_store.
Proof.
  apply (getitem_no_ops plain_wrapper 0 1); reflexivity.
Defined.
